(** * strace-tree: a tree of subprocesses from "strace -ff" output

    A shallow embedding of [strace-tree.py] and the properties of its
    stages: the per-file extractor ([StraceFile.__init__]), the forest
    builder ([tree]) and the listing ([_print_proc]).

    Modelling conventions.
    - Text is a list of characters; a character is a code point below 256.
    - The two regular expressions are embedded as syntax trees and run by a
      backtracking matcher that tries alternatives in the order of Python's
      [re] engine (greedy repetition first, leftmost alternative first).
    - Python objects live in a heap indexed by locations; a dict holds
      locations, so that the records reached through [procs], through a
      [children] set and through the returned roots are the same objects.
    - A dict is a finite map: the order in which Python iterates it is not
      part of the model.
    - The interpreter is CPython 3.11 or later with its default settings:
      [int] and [str] raise [ValueError] beyond 4300 digits.
    - The recursion limit is the number of nested calls the interpreter
      still allows. Which calls it counts inside the body of a function
      differs between its versions, so what one line of the listing costs
      is a parameter of the model.
    - A file is given by the text it decodes to. A file that opens but
      holds bytes that do not decode is read as one that cannot be opened:
      the constructor raises for both ([UnicodeDecodeError] for the first,
      which the model does not tell apart from [OSError]). *)

From Stdlib Require Import Ascii String ZArith Lia.
From stdpp Require Import gmap strings list fin_maps.

Local Open Scope Z_scope.

(** * The program *)

(** ** Text *)

Abbreviation text := (list ascii).

Definition str (s : string) : text := list_ascii_of_string s.
Arguments str _%_string.

(** [Py_UNICODE_ISSPACE] on code points below 256: used by [str.strip]
    and by [\s] and [\S]. *)
Definition is_space (c : ascii) : bool :=
  let n := N_of_ascii c in
  ((9 <=? n) && (n <=? 13) || (28 <=? n) && (n <=? 32)
   || (n =? 133) || (n =? 160))%N.

(** The double quote character. *)
Definition dq : ascii := "034".

Definition is_digit (c : ascii) : bool :=
  let n := N_of_ascii c in ((48 <=? n) && (n <=? 57))%N.

(** The whitespace [int] skips around a literal: [Py_ISSPACE] on ASCII
    (the separators 28 to 31 are kept), [Py_UNICODE_ISSPACE] above it. *)
Definition is_int_space (c : ascii) : bool :=
  let n := N_of_ascii c in
  ((9 <=? n) && (n <=? 13) || (n =? 32) || (n =? 133) || (n =? 160))%N.

Fixpoint lstrip_by (p : ascii -> bool) (s : text) : text :=
  match s with
  | c :: s' => if p c then lstrip_by p s' else s
  | [] => []
  end.

Definition rstrip_by (p : ascii -> bool) (s : text) : text :=
  rev (lstrip_by p (rev s)).

Definition strip_by (p : ascii -> bool) (s : text) : text :=
  rstrip_by p (lstrip_by p s).

(** [line.strip()] *)
Definition strip (s : text) : text := strip_by is_space s.

(** ** Regular expressions *)

Module Re.

(** One-character items of the two patterns. *)
Inductive cclass :=
  | CDot                      (* .      any character but a newline *)
  | CSpace                    (* \s *)
  | CNotSpace                 (* \S *)
  | CNot (c : ascii)          (* [^c] *)
  | CRange (lo hi : ascii)    (* [lo-hi] *)
  | CLit (c : ascii).         (* a literal character *)

Definition cmem (cl : cclass) (a : ascii) : bool :=
  match cl with
  | CDot => negb (Ascii.eqb a "010")
  | CSpace => is_space a
  | CNotSpace => negb (is_space a)
  | CNot c => negb (Ascii.eqb a c)
  | CRange lo hi =>
      ((N_of_ascii lo <=? N_of_ascii a) && (N_of_ascii a <=? N_of_ascii hi))%N
  | CLit c => Ascii.eqb a c
  end.

(** Repetition is only ever applied to a one-character item in the
    patterns of this program; [x+] is [Seq (Chr x) (Star x)]. *)
Inductive regex :=
  | Eps
  | Chr (cl : cclass)
  | Star (cl : cclass)
  | Seq (r1 r2 : regex)
  | Alt (r1 r2 : regex)
  | Group (name : string) (r : regex).

Definition Plus (cl : cclass) : regex := Seq (Chr cl) (Star cl).

Fixpoint lit (s : text) : regex :=
  match s with
  | [] => Eps
  | c :: s' => Seq (Chr (CLit c)) (lit s')
  end.

Fixpoint seqs (rs : list regex) : regex :=
  match rs with
  | [] => Eps
  | [r] => r
  | r :: rs' => Seq r (seqs rs')
  end.

(** The groups of a match object, by name (or by number, as text). *)
Abbreviation captures := (gmap string text).

(** Greedy repetition: take as many characters as the class allows, then
    give characters back one at a time until the rest of the pattern [k]
    succeeds. *)
Fixpoint greedy {A} (p : ascii -> bool) (s : text) (k : text -> option A)
  : option A :=
  match s with
  | c :: s' =>
      if p c then
        match greedy p s' k with
        | Some r => Some r
        | None => k s
        end
      else k s
  | [] => k s
  end.

(** The backtracking matcher, in continuation-passing style: [k] is the
    rest of the pattern, applied to the rest of the input. *)
Fixpoint run (r : regex) (s : text) (g : captures)
    (k : text -> captures -> option captures) : option captures :=
  match r with
  | Eps => k s g
  | Chr cl =>
      match s with
      | a :: s' => if cmem cl a then k s' g else None
      | [] => None
      end
  | Star cl => greedy (cmem cl) s (fun rest => k rest g)
  | Seq r1 r2 => run r1 s g (fun rest g' => run r2 rest g' k)
  | Alt r1 r2 =>
      match run r1 s g k with
      | Some x => Some x
      | None => run r2 s g k
      end
  | Group n r1 =>
      run r1 s g
        (fun rest g' =>
           k rest (<[n := take (length s - length rest)%nat s]> g'))
  end.

Definition at_end (rest : text) (g : captures) : option captures :=
  match rest with
  | [] => Some g
  | _ => None
  end.

(** [pattern.fullmatch(s)]: [None], or the groups of the match. *)
Definition fullmatch (r : regex) (s : text) : option captures :=
  run r s ∅ at_end.

End Re.

Import Re.

(** [RE_EXECVE]. The pattern of the source, item by item, with Q for the
    double quote character:
      \S+   execve\(   Q   (?P<exec> [^Q]+ )   Q, \[Q   (?P<name> [^Q]* )
      Q   (?P<args> .+ )   \]   .+   \) = 0
    where the literal items [ execve\(] and [\) = 0] start with a space and
    with an escaped parenthesis. *)
Definition RE_EXECVE : regex :=
  seqs [ Plus CNotSpace; lit (str " execve(" ++ [dq]);
         Group "exec" (Plus (CNot dq));
         lit (dq :: str ", [" ++ [dq]);
         Group "name" (Star (CNot dq));
         lit [dq];
         Group "args" (Plus CDot);
         lit (str "]");
         Plus CDot;
         lit (str ") = 0") ].

(** [RE_CLONE]. The pattern of the source, item by item:
      \S+   (space)   (clone|vfork)   \(   .*   \)   \s*   (space)=(space)
      (?P<pid> [0-9]+ ) *)
Definition RE_CLONE : regex :=
  seqs [ Plus CNotSpace; lit (str " ");
         Group "1" (Alt (lit (str "clone")) (lit (str "vfork")));
         lit (str "(");
         Star CDot;
         lit (str ")");
         Star CSpace;
         lit (str " = ");
         Group "pid" (Plus (CRange "0" "9")) ].


(** ** Exceptions *)

Inductive exn :=
  | IndexError | ValueError | OSError
  | TypeError | AttributeError | RecursionError.

Inductive result (A : Type) :=
  | Ok (a : A)
  | Raise (e : exn).
Arguments Ok {A} a.
Arguments Raise {A} e.

#[global] Instance result_ret : MRet result := fun A a => Ok a.

#[global] Instance result_bind : MBind result := fun A B f m =>
  match m with
  | Ok a => f a
  | Raise e => Raise e
  end.

Definition or_raise {A} (e : exn) (o : option A) : result A :=
  match o with
  | Some a => Ok a
  | None => Raise e
  end.

(** A loop whose body may raise: [for x in xs: st = body(st, x)]. *)
Fixpoint for_each {A S} (body : S -> A -> result S) (xs : list A) (st : S)
  : result S :=
  match xs with
  | [] => Ok st
  | x :: xs' => st' ← body st x; for_each body xs' st'
  end.

(** ** Built-ins: [str.split], [int], iteration over the lines of a file *)

(** [s.split(sep)] for a one-character separator. *)
Fixpoint split_on (sep : ascii) (s : text) : list text :=
  match s with
  | [] => [[]]
  | c :: s' =>
      if Ascii.eqb c sep then [] :: split_on sep s'
      else match split_on sep s' with
           | h :: t => (c :: h) :: t
           | [] => [[c]]
           end
  end.

Definition digit_val (c : ascii) : Z := Z.of_N (N_of_ascii c) - 48.

(** The digits of a decimal literal: a digit first, single underscores only
    between digits. *)
Fixpoint int_digits (s : text) (acc : Z) (after_digit : bool) : option Z :=
  match s with
  | [] => if after_digit then Some acc else None
  | c :: s' =>
      if is_digit c then int_digits s' (10 * acc + digit_val c) true
      else if Ascii.eqb c "_" then
        if after_digit then int_digits s' acc false else None
      else None
  end.

(** The default of [sys.int_max_str_digits]: the most digits [int] reads
    and [str] writes. *)
Definition max_str_digits : Z := 4300.

(** The digits of a literal; underscores are not counted. *)
Fixpoint count_digits (s : text) : Z :=
  match s with
  | [] => 0
  | c :: s' => (if is_digit c then 1 else 0) + count_digits s'
  end.

(** A decimal literal of no more digits than the limit. *)
Definition int_literal (ds : text) : option Z :=
  v ← int_digits ds 0 false;
  if count_digits ds <=? max_str_digits then Some v else None.

(** [int(s)]: surrounding whitespace, an optional sign, decimal digits;
    [None] stands for [ValueError]. *)
Definition py_int (s : text) : option Z :=
  match strip_by is_int_space s with
  | "-"%char :: ds => Z.opp <$> int_literal ds
  | "+"%char :: ds => int_literal ds
  | ds => int_literal ds
  end.

Definition LF : ascii := "010".
Definition CR : ascii := "013".

(** The lines a text file yields when iterated, each with its terminator;
    in text mode a carriage return, alone or before a line feed, ends a
    line and is read as a line feed. [cur] is the current line, reversed. *)
Fixpoint lines_from (cur : text) (s : text) : list text :=
  match s with
  | [] => match cur with [] => [] | _ => [rev cur] end
  | c :: s' =>
      if Ascii.eqb c LF then rev (LF :: cur) :: lines_from [] s'
      else if Ascii.eqb c CR then
        match s' with
        | c' :: s'' =>
            if Ascii.eqb c' LF then rev (LF :: cur) :: lines_from [] s''
            else rev (LF :: cur) :: lines_from [] s'
        | [] => [rev (LF :: cur)]
        end
      else lines_from (c :: cur) s'
  end.

Definition file_lines (content : text) : list text := lines_from [] content.

(** ** The extractor: [class StraceFile] *)

(** A reference to a [StraceFile] object: its index in the heap. *)
Abbreviation loc := nat.

Record StraceFile := mkStraceFile {
  filename : text;
  pid : Z;
  named : bool;
  execve : option text;
  name : option text;
  args : option text;
  clones : gset Z;
  children : option (gset loc)   (* [None]: attribute not set yet *)
}.

Definition match_group (m : captures) (n : string) : result text :=
  or_raise IndexError (m !! n).

(** The body of [for line in f] in [StraceFile.__init__]. *)
Definition scan_line (self : StraceFile) (line : text) : result StraceFile :=
  let line := strip line in
  match fullmatch RE_EXECVE line with
  | Some m =>
      if negb (named self) then
        e ← match_group m "exec";
        n ← match_group m "name";
        a ← match_group m "args";
        Ok {| filename := filename self; pid := pid self;
              named := true;
              execve := Some e;
              name := Some n;
              args := Some (dq :: n ++ dq :: a);
              clones := clones self; children := children self |}
      else Ok self
  | None =>
      match fullmatch RE_CLONE line with
      | Some m =>
          p ← match_group m "pid";
          n ← or_raise ValueError (py_int p);
          Ok {| filename := filename self; pid := pid self;
                named := named self; execve := execve self;
                name := name self; args := args self;
                clones := clones self ∪ {[ n ]};
                children := children self |}
      | None => Ok self
      end
  end.

(** The files that can be opened and decoded, with their text. *)
Abbreviation filesystem := (text -> option text).

(** The record before the first line is read. *)
Definition new_record (fname : text) (p : Z) : StraceFile :=
  {| filename := fname; pid := p; named := false;
     execve := None; name := None; args := None;
     clones := ∅; children := None |}.

(** [int(self.filename.split(".")[1])] *)
Definition filename_pid (fname : text) : result Z :=
  comp ← or_raise IndexError (split_on "." fname !! 1%nat);
  or_raise ValueError (py_int comp).

(** [StraceFile(filename)] *)
Definition StraceFile_init (fs : filesystem) (fname : text)
  : result StraceFile :=
  p ← filename_pid fname;
  content ← or_raise OSError (fs fname);
  for_each scan_line (file_lines content) (new_record fname p).

(** [execve_basename]: [os.path.basename] keeps what follows the last
    slash. *)
Fixpoint basename (s : text) : text :=
  match s with
  | [] => []
  | c :: s' =>
      if existsb (Ascii.eqb "/") s' then basename s'
      else if Ascii.eqb c "/" then s' else s
  end.

Definition execve_basename (self : StraceFile) : option text :=
  basename <$> execve self.

Definition name_basename (self : StraceFile) : option text :=
  basename <$> name self.

(** ** [processes] and [tree] *)

Abbreviation heap := (list StraceFile).

(** [processes(filenames)]: the loop, from a heap and a dict. *)
Definition processes_step (fs : filesystem)
    (st : heap * gmap Z loc) (fname : text) : result (heap * gmap Z loc) :=
  sf ← StraceFile_init fs fname;
  Ok (st.1 ++ [sf], <[pid sf := length st.1]> st.2).

Definition processes (fs : filesystem) (filenames : list text)
  : result (heap * gmap Z loc) :=
  for_each (processes_step fs) filenames ([], ∅).

(** [procs.values()], in the order the finite map lists its entries. *)
Definition values (procs : gmap Z loc) : list loc := (map_to_list procs).*2.

(** [set(filter(None, [procs.get(clone) for clone in proc.clones]))] *)
Definition children_of (procs : gmap Z loc) (cl : gset Z) : gset loc :=
  set_omap (fun c => procs !! c) cl.

Definition set_children (ch : gset loc) (p : StraceFile) : StraceFile :=
  {| filename := filename p; pid := pid p; named := named p;
     execve := execve p; name := name p; args := args p;
     clones := clones p; children := Some ch |}.

Definition set_label (lbl : text) (p : StraceFile) : StraceFile :=
  {| filename := filename p; pid := pid p; named := named p;
     execve := Some lbl; name := Some lbl; args := args p;
     clones := clones p; children := children p |}.

(** [proc.children = set(filter(None, ...))] *)
Definition with_children (procs : gmap Z loc) (proc : StraceFile)
  : StraceFile :=
  set_children (children_of procs (clones proc)) proc.

(** The first loop of [tree]; the state is the set [clones] and the heap.
    A reference always leads to an object: for a location outside the heap
    the loops leave the state as it is. *)
Definition tree_loop1 (procs : gmap Z loc)
    (st : gset Z * heap) (l : loc) : gset Z * heap :=
  match st.2 !! l with
  | Some proc => (st.1 ∪ clones proc, <[l := with_children procs proc]> st.2)
  | None => st
  end.

(** [if not proc.named: ...] *)
Definition relabel (cl : gset Z) (proc : StraceFile) : StraceFile :=
  if negb (named proc) then
    if decide (pid proc ∈ cl) then set_label (str "clone") proc
    else set_label (str "init") proc
  else proc.

(** The second loop of [tree]; the state is the heap and the dict [inits]. *)
Definition tree_loop2 (cl : gset Z)
    (st : heap * gmap Z loc) (l : loc) : heap * gmap Z loc :=
  match st.1 !! l with
  | Some proc =>
      (<[l := relabel cl proc]> st.1,
       if decide (pid proc ∈ cl) then st.2 else <[pid proc := l]> st.2)
  | None => st
  end.

(** [tree(procs)]: the heap after the call, and the returned dict. *)
Definition tree (h : heap) (procs : gmap Z loc) : heap * gmap Z loc :=
  let st1 := foldl (tree_loop1 procs) (∅, h) (values procs) in
  foldl (tree_loop2 st1.1) (st1.2, ∅) (values procs).

(** ** The listing: [_print_proc] *)

Definition digit_char (n : N) : ascii := ascii_of_N (48 + n).

(** The decimal digits of [n], most significant first; [fuel] bounds the
    number of digits. *)
Fixpoint to_digits (fuel : nat) (n : N) : text :=
  match fuel with
  | O => [digit_char n]
  | S fuel' =>
      if (n <? 10)%N then [digit_char n]
      else to_digits fuel' (n / 10) ++ [digit_char (n mod 10)]
  end.

(** The decimal digits of the absolute value of [z]. *)
Definition abs_digits (z : Z) : text :=
  match z with
  | Z0 => str "0"
  | Zpos p | Zneg p => to_digits (Pos.size_nat p) (Npos p)
  end.

(** [str(n)], as [f"{proc.pid}"] writes a pid; [None] stands for the
    [ValueError] of a number of more digits than the limit. *)
Definition py_str (z : Z) : option text :=
  if Z.of_nat (length (abs_digits z)) <=? max_str_digits then
    Some (match z with
          | Zneg _ => "-"%char :: abs_digits z
          | _ => abs_digits z
          end)
  else None.

(** How an f-string writes an attribute that may be [None]. *)
Definition fmt_opt (o : option text) : text := default (str "None") o.

(** What the line of a record costs in CPython 3.12, where only calls of
    functions written in Python count towards the recursion limit: for a
    named record the property [execve_basename] and, when [execve] is
    set, [os.path.basename] that it calls and the helper [_get_sep] that
    [os.path.basename] calls; nothing for an unnamed record. *)
Definition cpython_cost (proc : StraceFile) : nat :=
  if named proc then
    match execve proc with
    | None => 1
    | Some _ => 3
    end
  else 0.

(** The line [_print_proc] prints for [proc] when the interpreter allows
    [frames] more nested calls. [cost proc] is the deepest nesting of
    calls the interpreter counts while it makes and prints the line: the
    line is printed when [frames] is no less, and [RecursionError] is
    raised otherwise. The pid is written first ([ValueError] when it is
    too long to be written); [proc.args] is sliced last ([TypeError] when
    it is [None]). *)
Definition proc_line (cost : StraceFile -> nat) (frames : nat)
    (proc : StraceFile) (indent : nat) : result text :=
  p ← or_raise ValueError (py_str (pid proc));
  if (frames <? cost proc)%nat then Raise RecursionError
  else if named proc then
    a ← or_raise TypeError (args proc);
    Ok (replicate (indent * 2) " "%char ++ str " " ++ p
          ++ str " " ++ fmt_opt (execve_basename proc)
          ++ str " [" ++ take 64 a ++ str "]")
  else
    Ok (replicate (indent * 2) " "%char ++ str " " ++ p
          ++ str " " ++ fmt_opt (name proc)).

(** What a call has printed, and the exception that ended it, if any. *)
Abbreviation printed := (list text * option exn)%type.

(** [for child in ...: f(child)]: the lines add up, the first exception
    ends the loop. *)
Fixpoint for_children (f : loc -> printed) (cs : list loc) : printed :=
  match cs with
  | [] => ([], None)
  | c :: cs' =>
      match f c with
      | (out, Some e) => (out, Some e)
      | (out, None) =>
          let (out', e) := for_children f cs' in (out ++ out', e)
      end
  end.

(** [_print_proc(proc, indent)] on the object at [l]. [depth] is the
    number of nested calls the interpreter still allows when the call is
    made (the recursion limit less the calls already on the stack): the
    call itself takes one, and raises [RecursionError] when none is left.
    [proc.children] raises [AttributeError] when [tree] has not set it.
    The children are visited in the order the finite set lists them. A
    location that holds no object, which no Python reference is, prints
    nothing. *)
Fixpoint print_proc (cost : StraceFile -> nat) (depth : nat) (h : heap)
    (l : loc) (indent : nat) : printed :=
  match depth with
  | O => ([], Some RecursionError)
  | S depth' =>
      match h !! l with
      | None => ([], None)
      | Some proc =>
          match proc_line cost depth' proc indent with
          | Raise e => ([], Some e)
          | Ok line =>
              match children proc with
              | None => ([line], Some AttributeError)
              | Some ch =>
                  let (out, e) :=
                    for_children
                      (fun c => print_proc cost depth' h c (indent + 1))
                      (elements ch) in
                  (line :: out, e)
              end
          end
      end
  end.

(** * Definitions used to state the properties *)

(** ** The language of a pattern, and the lines the patterns are written for *)

(** [matches r s g g']: the pattern [r] matches exactly the text [s], and
    turns the groups [g] into [g']. *)
Inductive matches : regex -> text -> captures -> captures -> Prop :=
  | m_eps g : matches Eps [] g g
  | m_chr cl a g : cmem cl a = true -> matches (Chr cl) [a] g g
  | m_star cl s g : forallb (cmem cl) s = true -> matches (Star cl) s g g
  | m_seq r1 r2 s1 s2 g g1 g2 :
      matches r1 s1 g g1 -> matches r2 s2 g1 g2 ->
      matches (Seq r1 r2) (s1 ++ s2) g g2
  | m_alt_l r1 r2 s g g' : matches r1 s g g' -> matches (Alt r1 r2) s g g'
  | m_alt_r r1 r2 s g g' : matches r2 s g g' -> matches (Alt r1 r2) s g g'
  | m_group n r s g g' :
      matches r s g g' -> matches (Group n r) s g (<[n := s]> g').

Definition all_in (cl : cclass) (s : text) : Prop :=
  forallb (cmem cl) s = true.

(** The text of a line [RE_EXECVE] is written for: prefix [pre], path [e],
    display name [n], rest of the bracketed list [a], further arguments
    [v]. *)
Definition execve_text (pre e n a v : text) : text :=
  pre ++ (str " execve(" ++ [dq]) ++ e ++ (dq :: str ", [" ++ [dq]) ++ n
      ++ [dq] ++ a ++ str "]" ++ v ++ str ") = 0".

(** The text of a line [RE_CLONE] is written for. *)
Definition clone_text (pre call a w d : text) : text :=
  pre ++ str " " ++ call ++ str "(" ++ a ++ str ")" ++ w ++ str " = " ++ d.

Record execve_parts (pre e n a v : text) : Prop := {
  ep_pre : pre <> [] /\ all_in CNotSpace pre;
  ep_exec : e <> [] /\ all_in (CNot dq) e;
  ep_name : all_in (CNot dq) n;
  ep_args : a <> [] /\ all_in CDot a;
  ep_rest : v <> [] /\ all_in CDot v
}.

Record clone_parts (pre call a w d : text) : Prop := {
  cp_pre : pre <> [] /\ all_in CNotSpace pre;
  cp_call : call = str "clone" \/ call = str "vfork";
  cp_args : all_in CDot a;
  cp_space : all_in CSpace w;
  cp_pid : d <> [] /\ all_in (CRange "0" "9") d
}.

(** What [RE_EXECVE] captures in a line, when it recognises it: path,
    display name, rest of the bracketed list. *)
Definition recognised_execve (line : text) : option (text * text * text) :=
  m ← fullmatch RE_EXECVE (strip line);
  e ← m !! "exec"; n ← m !! "name"; a ← m !! "args";
  Some (e, n, a).

(** What [RE_CLONE] captures in a line, when it recognises it. *)
Definition recognised_clone (line : text) : option text :=
  m ← fullmatch RE_CLONE (strip line); m !! "pid".

(** A line neither pattern recognises. *)
Definition unrecognised (l : text) : Prop :=
  recognised_execve l = None /\ recognised_clone l = None.

(** [int] reads the pid of the line, when [RE_CLONE] recognises it. *)
Definition pid_converts (line : text) : Prop :=
  forall d, recognised_clone line = Some d -> is_Some (py_int d).

(** ** Records during the scan *)

(** The record after the first recognised [execve] line. *)
Definition set_exec (self : StraceFile) (e n a : text) : StraceFile :=
  {| filename := filename self; pid := pid self; named := true;
     execve := Some e; name := Some n; args := Some (dq :: n ++ dq :: a);
     clones := clones self; children := children self |}.

(** The record after a recognised creation line. *)
Definition add_clone (self : StraceFile) (p : Z) : StraceFile :=
  {| filename := filename self; pid := pid self; named := named self;
     execve := execve self; name := name self; args := args self;
     clones := clones self ∪ {[ p ]}; children := children self |}.

(** The fields a recognised [execve] line writes. *)
Definition same_image (r self : StraceFile) : Prop :=
  named r = named self /\ execve r = execve self /\
  name r = name self /\ args r = args self.

(** The successful image replacements a file shows, in the order of its
    lines: path, display name, rest of the bracketed list. *)
Definition execs_of (content : text) : list (text * text * text) :=
  omap recognised_execve (file_lines content).

(** A record can be made of the file. *)
Definition constructible (fs : filesystem) (f : text) : Prop :=
  exists r, StraceFile_init fs f = Ok r.

(** ** Call lines and the value they return *)

Fixpoint starts_with (pat s : text) : bool :=
  match pat, s with
  | [], _ => true
  | p :: pat', c :: s' => Ascii.eqb p c && starts_with pat' s'
  | _ :: _, [] => false
  end.

(** [pat in s] *)
Fixpoint contains (pat s : text) : bool :=
  starts_with pat s ||
  match s with
  | [] => false
  | _ :: s' => contains pat s'
  end.

Fixpoint leading_digits (s : text) : text :=
  match s with
  | c :: s' => if is_digit c then c :: leading_digits s' else []
  | [] => []
  end.

(** The number a call line shows after [ = ]: an optional minus sign and
    decimal digits, whatever follows them. *)
Definition return_value (r : text) : option Z :=
  match r with
  | "-"%char :: ds => Z.opp <$> int_digits (leading_digits ds) 0 false
  | ds => int_digits (leading_digits ds) 0 false
  end.

(** The text before a call is one whitespace-free token and a space. *)
Definition one_token (pre : text) : Prop :=
  exists tok, pre = tok ++ str " " /\ all_in CNotSpace tok.

(** The line shows, after a space, the name of a creation call and an
    opening parenthesis. *)
Definition names_creation (s : text) : bool :=
  contains (str " clone(") s || contains (str " vfork(") s.

Definition no_newline (s : text) : Prop :=
  forallb (fun c => negb (Ascii.eqb c LF) && negb (Ascii.eqb c CR)) s = true.

(** ** File names *)

(** The text up to the first dot, and the text after it (if any dot). *)
Fixpoint before_dot (s : text) : text :=
  match s with
  | [] => []
  | c :: s' => if Ascii.eqb c "." then [] else c :: before_dot s'
  end.

Fixpoint after_dot (s : text) : option text :=
  match s with
  | [] => None
  | c :: s' => if Ascii.eqb c "." then Some s' else after_dot s'
  end.

(** The component of a name between its first dot and its second dot, or
    the end of the name. *)
Definition pid_component (fname : text) : option text :=
  before_dot <$> after_dot fname.

(** ** The loops of [tree] *)

(** A loop that rewrites, in place, each object of a list of references. *)
Definition alter_all (f : StraceFile -> StraceFile) (ls : list loc) (h : heap)
  : heap :=
  foldl (fun h l => alter f l h) h ls.

(** The set of pids the object at [l] spawned, and its pid. *)
Definition clones_at (h : heap) (l : loc) : gset Z :=
  default ∅ (clones <$> h !! l).

Definition pid_at (h : heap) (l : loc) : option Z := pid <$> h !! l.

(** What the second loop does to [inits] at one reference. *)
Definition inits_step (h : heap) (cl : gset Z) (m : gmap Z loc) (l : loc)
  : gmap Z loc :=
  match pid_at h l with
  | Some k => if decide (k ∈ cl) then m else <[k := l]> m
  | None => m
  end.

(** [x] is in the union of the [clones] sets of the records of [procs]. *)
Definition all_spawned (h : heap) (procs : gmap Z loc) (x : Z) : Prop :=
  exists k l p, procs !! k = Some l /\ h !! l = Some p /\ x ∈ clones p.

(** Every key of [procs] is the pid of the record it holds, as in the dict
    [processes] returns. *)
Definition keyed_by_pid (h : heap) (procs : gmap Z loc) : Prop :=
  forall k l, procs !! k = Some l -> exists p, h !! l = Some p /\ pid p = k.

(** The set [clones] after the first loop of [tree]. *)
Definition spawned_set (h : heap) (procs : gmap Z loc) : gset Z :=
  ⋃ (clones_at h <$> values procs).

(** ** Example inputs *)

Definition enoent_line : text :=
  str "1 execve(" ++ [dq] ++ str "/bin/x" ++ [dq] ++ str ", [" ++ [dq]
    ++ str "x" ++ [dq] ++ str ", " ++ [dq] ++ str "y" ++ [dq]
    ++ str "], 0x7ffc /* 3 vars */) = -1 ENOENT (No such file or directory)"
    ++ [LF].

Definition eagain_line : text :=
  str "1 clone(child_stack=NULL, flags=SIGCHLD) = "
    ++ str "-1 EAGAIN (Resource temporarily unavailable)" ++ [LF].

(** Failed calls as the tracer writes them with no prefix, and after the
    two tokens of a [[pid N]] prefix; a call line with a positive return
    value. *)
Definition enoent_bare : text :=
  str "execve(" ++ [dq] ++ str "/bin/x" ++ [dq] ++ str ", [" ++ [dq]
    ++ str "x" ++ [dq] ++ str ", " ++ [dq] ++ str "y" ++ [dq]
    ++ str "], 0x7ffc /* 3 vars */) = -1 ENOENT (No such file or directory)"
    ++ [LF].

Definition eagain_pid_line : text :=
  str "[pid 7] vfork() = "
    ++ str "-1 EAGAIN (Resource temporarily unavailable)" ++ [LF].

Definition positive_bare : text :=
  str "execve(" ++ [dq] ++ str "/bin/x" ++ [dq] ++ str ", [" ++ [dq]
    ++ str "x" ++ [dq] ++ str "], 0x7ffc /* 3 vars */) = 2" ++ [LF].

(** A file that execs twice: [/bin/a] as [a x], then [/bin/b] as [b y]. *)
Definition exec_a : text :=
  execve_text (str "1") (str "/bin/a") (str "a")
    (str ", " ++ [dq] ++ str "x" ++ [dq]) (str ", 0x7ffc /* 3 vars */").

Definition exec_b : text :=
  execve_text (str "2") (str "/bin/b") (str "b")
    (str ", " ++ [dq] ++ str "y" ++ [dq]) (str ", 0x7ffc /* 3 vars */").

Definition two_execs : text := exec_a ++ [LF] ++ exec_b ++ [LF].

Definition fs_two_execs : filesystem := fun f =>
  if decide (f = str "trace.7") then Some two_execs else None.

(** The line [1 execve(Q/bin/lsQ, [QlsQ], 0x7ffc /* 3 vars */) = 0], with Q
    for the double quote character. *)
Definition exec_ls : text :=
  execve_text (str "1") (str "/bin/ls") (str "ls") []
    (str ", 0x7ffc /* 3 vars */").

(** Two files for pid 5: the first shows a child 9, the second nothing. *)
Definition same_pid_fs : filesystem := fun f =>
  if decide (f = str "a.5") then
    Some (str "1 clone(flags=SIGCHLD) = 9" ++ [LF])
  else if decide (f = str "b.5") then Some []
  else None.

(** The text [, Q-cQ, QtrueQ] (Q for the double quote character): what
    follows the display name in the bracketed list of the example. *)
Definition sh_args : text :=
  str ", " ++ [dq] ++ str "-c" ++ [dq] ++ str ", " ++ [dq] ++ str "true"
    ++ [dq].

(** The [execve] line of the example as the specification writes it:
    [execve(Q/bin/shQ, [QshQ, Q-cQ, QtrueQ]) = 0]. *)
Definition exec_sh_as_written : text :=
  str "execve(" ++ [dq] ++ str "/bin/sh" ++ [dq] ++ str ", [" ++ [dq]
    ++ str "sh" ++ [dq] ++ sh_args ++ str "]) = 0".

(** The same call after a prefix [pre] and with further argument text [v]
    after the bracketed list, as the tracer writes it for this program. *)
Definition exec_sh_line (pre v : text) : text :=
  execve_text pre (str "/bin/sh") (str "sh") sh_args v.

Definition exec_sh : text :=
  exec_sh_line (str "1") (str ", 0x7ffc /* 3 vars */").

Definition clone_101 : text :=
  clone_text (str "1") (str "clone")
    (str "child_stack=NULL, flags=CLONE_CHILD_CLEARTID|SIGCHLD") []
    (str "101").

Definition exit_101 : text := str "1 exit_group(0) = ?" ++ [LF].

Definition example_names : list text := [str "trace.100"; str "trace.101"].

(** The two files: [trace.100] holds an [execve] line and a creation line,
    [trace.101] holds [other]. *)
Definition example_fs (exec_line clone_line other : text) : filesystem :=
  fun f =>
    if decide (f = str "trace.100") then
      Some (exec_line ++ [LF] ++ clone_line ++ [LF])
    else if decide (f = str "trace.101") then Some other
    else None.

(** What [processes] makes of the example. *)
Definition example_heap : heap :=
  [ add_clone
      (set_exec (new_record (str "trace.100") 100)
         (str "/bin/sh") (str "sh") sh_args) 101;
    new_record (str "trace.101") 101 ].

Definition example_procs : gmap Z loc :=
  <[101 := 1%nat]> (<[100 := 0%nat]> ∅).

(** A line that leaves the example as it is: no recognised [execve] line,
    and when it is a creation line, one whose pid [int] reads and that is
    neither 100 nor 101. *)
Definition bystander (l : text) : Prop :=
  recognised_execve l = None /\
  forall d, recognised_clone l = Some d ->
    exists x, py_int d = Some x /\ x <> 100 /\ x <> 101.

(** A creation line of the shape of [clone_101] that returns [d]. *)
Definition clone_line (d : text) : text :=
  clone_text (str "1") (str "clone")
    (str "child_stack=NULL, flags=CLONE_CHILD_CLEARTID|SIGCHLD") [] d.

(** A file for [trace.101] with a creation line that returns 555. *)
Definition other_555 : text :=
  clone_line (str "555") ++ [LF] ++ exit_101.

(** No closing bracket of [v] is followed by more of [v]. *)
Definition bracket_last_only (v : text) : Prop :=
  forall x y, v = x ++ "]"%char :: y -> y = [].

(** The [execve] line of the example with a bracketed environment after
    the argument list, as the tracer writes it when asked for it in
    full; and the same with a closing bracket inside the environment. *)
Definition exec_sh_env : text :=
  exec_sh_line (str "1")
    (str ", [" ++ [dq] ++ str "A=1" ++ [dq] ++ str "]").

(** The line of the example with a prefix but nothing after the list, and
    with a third argument but no prefix. *)
Definition exec_sh_no_more : text := exec_sh_line (str "1") [].

Definition exec_sh_no_prefix : text :=
  str "execve(" ++ [dq] ++ str "/bin/sh" ++ [dq] ++ str ", [" ++ [dq]
    ++ str "sh" ++ [dq] ++ sh_args ++ str "], 0x7ffc /* 3 vars */) = 0".

Definition exec_sh_env_bracket : text :=
  exec_sh_line (str "1")
    (str ", [" ++ [dq] ++ str "A=]x" ++ [dq] ++ str "]").

(** What the example expects of [tree]: record 100 is the only root, is
    named [sh], has the argument text [QshQ, Q-cQ, QtrueQ] and record 101
    as its only child; record 101 is labelled [clone] and has no child. *)
Definition example_outcome (procs : gmap Z loc) (st : heap * gmap Z loc)
  : Prop :=
  exists l100 l101 r100 r101,
    procs !! 100 = Some l100 /\ procs !! 101 = Some l101 /\
    st.1 !! l100 = Some r100 /\ st.1 !! l101 = Some r101 /\
    st.2 = {[ 100 := l100 ]} /\
    name r100 = Some (str "sh") /\
    execve_basename r100 = Some (str "sh") /\
    args r100 = Some (dq :: str "sh" ++ dq :: sh_args) /\
    children r100 = Some {[ l101 ]} /\
    name r101 = Some (str "clone") /\
    children r101 = Some ∅.


(** ** Further definitions: the extractor *)

(** The number a run of decimal digits writes. *)
Definition decimal_value (d : text) : Z :=
  foldl (fun a c => 10 * a + digit_val c) 0 d.

(** The three fields of an image replacement are present together, and
    exactly when [named] is set. *)
Definition image_consistent (r : StraceFile) : Prop :=
  if named r then is_Some (execve r) /\ is_Some (name r) /\ is_Some (args r)
  else execve r = None /\ name r = None /\ args r = None.

(** The pid a line gives as spawned, when [RE_CLONE] recognises it. *)
Definition spawned_by (line : text) : option Z :=
  d ← recognised_clone line; py_int d.

(** ** Further definitions: [processes] and [tree] *)

(** The object at [l] is the last of the heap with pid [k]. *)
Definition last_with_pid (h : heap) (k : Z) (l : loc) : Prop :=
  exists r, h !! l = Some r /\ pid r = k /\
    forall l' r', (l < l')%nat -> h !! l' = Some r' -> pid r' <> k.

(** Some record of [procs] has the object at [l] among its [children]. *)
Definition child_of_some (h : heap) (procs : gmap Z loc) (l : loc) : Prop :=
  exists k' l' p' ch,
    procs !! k' = Some l' /\ h !! l' = Some p' /\
    children p' = Some ch /\ l ∈ ch.

(** ** Further definitions: example inputs *)

(** Two files: [trace.1] shows the child 2, [trace.2] shows the child 2
    again, its own pid. *)
Definition loop_fs : filesystem := fun f =>
  if decide (f = str "trace.1") then
    Some (str "1 clone(flags=SIGCHLD) = 2" ++ [LF])
  else if decide (f = str "trace.2") then
    Some (str "1 clone(flags=SIGCHLD) = 2" ++ [LF])
  else None.

(** The heap [tree] leaves for these two files. *)
Definition loop_heap : heap :=
  match processes loop_fs [str "trace.1"; str "trace.2"] with
  | Ok (h, procs) => (tree h procs).1
  | Raise _ => []
  end.

(** The line [1 execve(Q/usr/bin/[Q, [Q[Q, Q-fQ, QxQ, Q]Q], 0x7ffc /* 3
    vars */) = 0] (Q for the double quote character), and the rest of its
    bracketed list. *)
Definition test_args : text :=
  str ", " ++ [dq] ++ str "-f" ++ [dq] ++ str ", " ++ [dq] ++ str "x" ++ [dq]
    ++ str ", " ++ [dq] ++ str "]" ++ [dq].

Definition exec_test : text :=
  execve_text (str "1") (str "/usr/bin/[") (str "[") test_args
    (str ", 0x7ffc /* 3 vars */").

(** A record that has read [exec_sh]. *)
Definition sh_record : StraceFile :=
  set_exec (new_record (str "trace.100") 100)
    (str "/bin/sh") (str "sh") sh_args.

(** ** Further definitions: descent *)

(** [descends h l m]: the object at [m] is the one at [l], or is reached
    from it through [children] sets. *)
Inductive descends (h : heap) : loc -> loc -> Prop :=
  | descends_refl l : descends h l l
  | descends_step l p ch c m :
      h !! l = Some p -> children p = Some ch -> c ∈ ch ->
      descends h c m -> descends h l m.

(** ** Further definitions: the tail of [RE_EXECVE] *)

(** The items of [RE_EXECVE], from the last one back. *)
Abbreviation T1 := (lit (str ") = 0")).
Abbreviation T2 := (Seq (Plus CDot) T1).
Abbreviation T3 := (Seq (lit (str "]")) T2).
Abbreviation T4 := (Seq (Group "args" (Plus CDot)) T3).
Abbreviation T5 := (Seq (lit [dq]) T4).
Abbreviation T6 := (Seq (Group "name" (Star (CNot dq))) T5).
Abbreviation T7 := (Seq (lit (dq :: str ", [" ++ [dq])) T6).
Abbreviation T8 := (Seq (Group "exec" (Plus (CNot dq))) T7).
Abbreviation T9 := (Seq (lit (str " execve(" ++ [dq])) T8).


(** * Properties *)

(** ** The matcher against the language of a pattern *)

Module ReFacts.

Lemma greedy_sound {A} p s (k : text -> option A) c :
  greedy p s k = Some c ->
  exists s1 s2, s = s1 ++ s2 /\ forallb p s1 = true /\ k s2 = Some c.
Proof.
  induction s as [|a s IH]; simpl; intros H.
  - exists [], []. auto.
  - destruct (p a) eqn:Hp.
    + destruct (greedy p s k) eqn:Hg.
      * inversion H; subst.
        destruct (IH eq_refl) as (s1 & s2 & -> & H1 & H2).
        exists (a :: s1), s2. simpl. rewrite Hp, H1. auto.
      * exists [], (a :: s). auto.
    + exists [], (a :: s). auto.
Qed.

Lemma take_app_rest (s1 s2 : text) :
  take (length (s1 ++ s2) - length s2)%nat (s1 ++ s2) = s1.
Proof.
  rewrite length_app.
  replace (length s1 + length s2 - length s2)%nat with (length s1) by lia.
  apply take_app_length.
Qed.

(** Soundness: a successful run splits the input into a part the pattern
    matches and a rest the continuation accepted. *)
Lemma run_sound r : forall s g k c,
  run r s g k = Some c ->
  exists s1 s2 g', s = s1 ++ s2 /\ matches r s1 g g' /\ k s2 g' = Some c.
Proof.
  induction r as [|cl|cl|r1 IH1 r2 IH2|r1 IH1 r2 IH2|n r IH];
    simpl; intros s g k c H.
  - exists [], s, g. split; [done|]. split; [constructor|done].
  - destruct s as [|a s]; [done|].
    destruct (cmem cl a) eqn:Hc; [|done].
    exists [a], s, g. split; [done|]. split; [by constructor|done].
  - apply greedy_sound in H as (s1 & s2 & -> & H1 & H2).
    exists s1, s2, g. split; [done|]. split; [by constructor|done].
  - apply IH1 in H as (s1 & s2 & g1 & -> & M1 & H).
    apply IH2 in H as (s3 & s4 & g2 & -> & M2 & H).
    exists (s1 ++ s3), s4, g2. rewrite <- app_assoc.
    split; [done|]. split; [by econstructor|done].
  - destruct (run r1 s g k) eqn:H1.
    + inversion H; subst.
      apply IH1 in H1 as (s1 & s2 & g1 & -> & M1 & H1).
      exists s1, s2, g1. split; [done|]. split; [by apply m_alt_l|done].
    + apply IH2 in H as (s1 & s2 & g1 & -> & M1 & H).
      exists s1, s2, g1. split; [done|]. split; [by apply m_alt_r|done].
  - apply IH in H as (s1 & s2 & g1 & -> & M1 & H).
    rewrite take_app_rest in H.
    exists s1, s2, (<[n := s1]> g1).
    split; [done|]. split; [by constructor|done].
Qed.

Lemma fullmatch_sound r s c :
  fullmatch r s = Some c -> matches r s ∅ c.
Proof.
  unfold fullmatch. intros H.
  apply run_sound in H as (s1 & s2 & g' & -> & M & H).
  destruct s2; [|done]. simpl in H. inversion H; subst.
  by rewrite app_nil_r.
Qed.

Lemma greedy_keeps {A} p s (k : text -> option A) :
  is_Some (k s) -> is_Some (greedy p s k).
Proof.
  intros H. destruct s as [|a s]; simpl; [done|].
  destruct (p a); [|done]. by destruct (greedy p s k).
Qed.

Lemma greedy_complete {A} p s1 s2 (k : text -> option A) :
  forallb p s1 = true -> is_Some (k s2) -> is_Some (greedy p (s1 ++ s2) k).
Proof.
  induction s1 as [|a s1 IH]; simpl; intros H1 H2.
  - by apply greedy_keeps.
  - apply andb_true_iff in H1 as [-> H1].
    destruct (IH H1 H2) as [x ->]. done.
Qed.

(** Completeness: the backtracking order never loses a match. *)
Lemma run_complete r s1 g g' :
  matches r s1 g g' ->
  forall s2 k h,
    (forall g'', is_Some (k s2 g'')) -> is_Some (run r (s1 ++ s2) h k).
Proof.
  induction 1 as [g|cl a g Hc|cl s g Hs|r1 r2 s1 s2' g g1 g2 M1 IH1 M2 IH2
                 |r1 r2 s g g' M IH|r1 r2 s g g' M IH|n r s g g' M IH];
    intros s2 k h Hk; simpl.
  - done.
  - by rewrite Hc.
  - by apply greedy_complete.
  - rewrite <- app_assoc. apply IH1. intros g''. by apply IH2.
  - destruct (IH s2 k h Hk) as [x ->]. done.
  - destruct (run r1 (s ++ s2) h k); [done|]. by apply IH.
  - apply IH. intros g''. done.
Qed.

Lemma fullmatch_complete r s g g' :
  matches r s g g' -> is_Some (fullmatch r s).
Proof.
  intros M. unfold fullmatch.
  rewrite <- (app_nil_r s). by eapply run_complete.
Qed.

Lemma matches_lit t : forall s g g',
  matches (lit t) s g g' -> s = t /\ g' = g.
Proof.
  induction t as [|c t IH]; simpl; intros s g g' M.
  - by inversion M.
  - inversion M as [| | |? ? s1 s2 ? g1 ? M1 M2| | |]; subst.
    inversion M1 as [|? a ? Hc| | | | |]; subst.
    apply Ascii.eqb_eq in Hc as ->.
    apply IH in M2 as [-> ->]. done.
Qed.

Lemma matches_star cl s g g' :
  matches (Star cl) s g g' -> forallb (cmem cl) s = true /\ g' = g.
Proof. by inversion 1. Qed.

Lemma matches_plus cl s g g' :
  matches (Plus cl) s g g' ->
  s <> [] /\ forallb (cmem cl) s = true /\ g' = g.
Proof.
  unfold Plus. intros M.
  inversion M as [| | |? ? s1 s2 ? g1 ? M1 M2| | |]; subst.
  inversion M1 as [|? a ? Hc| | | | |]; subst.
  apply matches_star in M2 as [H ->]. simpl. rewrite Hc, H. done.
Qed.

Lemma matches_group n r s g g' :
  matches (Group n r) s g g' ->
  exists g1, matches r s g g1 /\ g' = <[n := s]> g1.
Proof. inversion 1; subst. eauto. Qed.

Lemma matches_seq r1 r2 s g g' :
  matches (Seq r1 r2) s g g' ->
  exists s1 s2 g1,
    s = s1 ++ s2 /\ matches r1 s1 g g1 /\ matches r2 s2 g1 g'.
Proof. inversion 1; subst. eauto 10. Qed.

Lemma matches_alt r1 r2 s g g' :
  matches (Alt r1 r2) s g g' -> matches r1 s g g' \/ matches r2 s g g'.
Proof. inversion 1; subst; auto. Qed.

(** Take a match of a concrete pattern apart, item by item. *)
Ltac split_match :=
  repeat match goal with
  | H : matches (Seq _ _) _ _ _ |- _ =>
      apply matches_seq in H as (? & ? & ? & -> & ? & H)
  | H : matches (Plus _) _ _ _ |- _ =>
      apply matches_plus in H as (? & ? & ->)
  | H : matches (Star _) _ _ _ |- _ =>
      apply matches_star in H as (? & ->)
  | H : matches (lit _) _ _ _ |- _ =>
      apply matches_lit in H as (-> & ->)
  | H : matches (Group _ _) _ _ _ |- _ =>
      apply matches_group in H as (? & H & ->)
  end.

End ReFacts.

Import ReFacts.

Lemma execve_shape s c :
  fullmatch RE_EXECVE s = Some c ->
  exists pre e n a v,
    s = execve_text pre e n a v /\ execve_parts pre e n a v /\
    c = <["args" := a]> (<["name" := n]> (<["exec" := e]> ∅)).
Proof.
  intros M%fullmatch_sound. cbv [RE_EXECVE seqs] in M.
  split_match.
  eexists _, _, _, _, _. split; [reflexivity|]. split; [by split|done].
Qed.

Lemma clone_shape s c :
  fullmatch RE_CLONE s = Some c ->
  exists pre call a w d,
    s = clone_text pre call a w d /\ clone_parts pre call a w d /\
    c = <["pid" := d]> (<["1" := call]> ∅).
Proof.
  intros M%fullmatch_sound. cbv [RE_CLONE seqs] in M.
  split_match.
  match goal with H : matches (Alt _ _) _ _ _ |- _ =>
    apply matches_alt in H as [H|H]; apply matches_lit in H as (-> & ->) end.
  all: eexists _, _, _, _, _; (split; [reflexivity|]);
    (split; [split; auto|done]).
Qed.

(** ** Characters and text *)

Lemma digit_not_space a : is_digit a = true -> is_int_space a = false.
Proof.
  destruct a as [[] [] [] [] [] [] [] []]; vm_compute; congruence.
Qed.

Lemma range_digit a : cmem (CRange "0" "9") a = is_digit a.
Proof. reflexivity. Qed.

Lemma lstrip_id p c s : p c = false -> lstrip_by p (c :: s) = c :: s.
Proof. simpl. by intros ->. Qed.

Lemma rstrip_id p s c : p c = false -> rstrip_by p (s ++ [c]) = s ++ [c].
Proof.
  intros H. unfold rstrip_by. rewrite rev_app_distr. simpl. rewrite H.
  simpl. by rewrite rev_involutive.
Qed.

(** Stripping leaves a text alone when neither end is whitespace. *)
Lemma strip_id p c s d :
  p c = false -> p d = false -> strip_by p (c :: s ++ [d]) = c :: s ++ [d].
Proof.
  intros Hc Hd. unfold strip_by. rewrite lstrip_id by done.
  change (c :: s ++ [d]) with ((c :: s) ++ [d]). by apply rstrip_id.
Qed.

Lemma strip_id1 p c : p c = false -> strip_by p [c] = [c].
Proof.
  intros Hc. unfold strip_by. rewrite lstrip_id by done.
  by apply (rstrip_id p []).
Qed.

Lemma all_in_cons cl c s :
  all_in cl (c :: s) <-> cmem cl c = true /\ all_in cl s.
Proof. unfold all_in. cbn [forallb]. apply andb_true_iff. Qed.

Lemma all_in_app cl s t :
  all_in cl (s ++ t) <-> all_in cl s /\ all_in cl t.
Proof. unfold all_in. rewrite forallb_app. apply andb_true_iff. Qed.

Lemma all_in_last cl s :
  s <> [] -> all_in cl s ->
  exists s' d, s = s' ++ [d] /\ cmem cl d = true /\ all_in cl s'.
Proof.
  intros Hne H. destruct (exists_last Hne) as (s' & d & ->).
  apply all_in_app in H as [H1 H2]. apply all_in_cons in H2 as [H2 _].
  eauto.
Qed.

Lemma strip_digits d :
  d <> [] -> all_in (CRange "0" "9") d -> strip_by is_int_space d = d.
Proof.
  intros Hne H. destruct d as [|c d]; [done|].
  apply all_in_cons in H as [Hc Hd].
  destruct (decide (d = [])) as [->|Hd'].
  - apply strip_id1, digit_not_space. by rewrite <- range_digit.
  - destruct (all_in_last _ _ Hd' Hd) as (d' & z & -> & Hz & _).
    apply strip_id; apply digit_not_space; by rewrite <- range_digit.
Qed.

Lemma int_digits_total d : forall acc b,
  all_in (CRange "0" "9") d -> (d <> [] \/ b = true) ->
  is_Some (int_digits d acc b).
Proof.
  induction d as [|c d IH]; intros acc b H Hne; simpl.
  - destruct Hne as [?| ->]; done.
  - apply all_in_cons in H as [Hc Hd].
    rewrite range_digit in Hc. rewrite Hc. apply IH; auto.
Qed.

Lemma count_digits_all d :
  all_in (CRange "0" "9") d -> count_digits d = Z.of_nat (length d).
Proof.
  induction d as [|c d IH]; intros H; [done|].
  apply all_in_cons in H as [Hc Hd]. rewrite range_digit in Hc.
  cbn [count_digits length]. rewrite Hc, (IH Hd). lia.
Qed.

(** On a nonempty run of decimal digits [int] reads a literal. *)
Lemma py_int_run d :
  d <> [] -> all_in (CRange "0" "9") d -> py_int d = int_literal d.
Proof.
  intros Hne H. unfold py_int. rewrite strip_digits by done.
  destruct d as [|c d]; [done|].
  apply all_in_cons in H as [Hc _].
  destruct c as [[] [] [] [] [] [] [] []]; try done.
Qed.

(** [int] accepts a nonempty run of decimal digits exactly when it is no
    longer than the limit. *)
Lemma py_int_digits d :
  d <> [] -> all_in (CRange "0" "9") d ->
  is_Some (py_int d) <-> Z.of_nat (length d) <= max_str_digits.
Proof.
  intros Hne H. rewrite py_int_run by done. unfold int_literal.
  destruct (int_digits_total d 0 false H (or_introl Hne)) as [v ->].
  cbn [mbind option_bind]. rewrite count_digits_all by done.
  destruct (Z.leb_spec (Z.of_nat (length d)) max_str_digits) as [L|L].
  - split; [done|by eexists].
  - split; [by intros [? ?]|lia].
Qed.

(** ** One line of the scan *)

Lemma recognised_execve_iff line :
  is_Some (recognised_execve line) <->
  is_Some (fullmatch RE_EXECVE (strip line)).
Proof.
  unfold recognised_execve. split.
  - intros [x H]. by destruct (fullmatch RE_EXECVE (strip line)).
  - intros [m H]. rewrite H. simpl.
    apply execve_shape in H as (pre & e & n & a & v & _ & _ & ->).
    by simplify_map_eq.
Qed.

Lemma recognised_clone_iff line :
  is_Some (recognised_clone line) <->
  is_Some (fullmatch RE_CLONE (strip line)).
Proof.
  unfold recognised_clone. split.
  - intros [x H]. by destruct (fullmatch RE_CLONE (strip line)).
  - intros [m H]. rewrite H. simpl.
    apply clone_shape in H as (pre & call & a & w & d & _ & _ & ->).
    by simplify_map_eq.
Qed.

(** The pid [RE_CLONE] captures is a nonempty run of decimal digits. *)
Lemma recognised_clone_digits line d :
  recognised_clone line = Some d -> d <> [] /\ all_in (CRange "0" "9") d.
Proof.
  unfold recognised_clone.
  destruct (fullmatch RE_CLONE (strip line)) as [m|] eqn:H; [|done].
  simpl. apply clone_shape in H as (pre & call & a & w & d' & _ & Hp & ->).
  simplify_map_eq. intros [= <-]. by destruct Hp.
Qed.

(** [scan_line] by cases on what the two patterns recognise. *)
Lemma scan_line_cases self line :
  scan_line self line =
    match recognised_execve line with
    | Some (e, n, a) => Ok (if named self then self else set_exec self e n a)
    | None =>
        match recognised_clone line with
        | Some d =>
            match py_int d with
            | Some p => Ok (add_clone self p)
            | None => Raise ValueError
            end
        | None => Ok self
        end
    end.
Proof.
  unfold scan_line, recognised_execve, recognised_clone.
  destruct (fullmatch RE_EXECVE (strip line)) as [m|] eqn:He; simpl.
  - apply execve_shape in He as (pre & e & n & a & v & _ & _ & ->).
    simplify_map_eq. unfold match_group. simplify_map_eq.
    by destruct (named self).
  - destruct (fullmatch RE_CLONE (strip line)) as [m|] eqn:Hc; simpl; [|done].
    apply clone_shape in Hc as (pre & call & a & w & d & _ & _ & ->).
    unfold match_group. simplify_map_eq. by destruct (py_int d).
Qed.

(** A line makes the scan raise only when it is a creation line whose pid
    [int] rejects. *)
Lemma scan_line_total self line :
  pid_converts line -> exists self', scan_line self line = Ok self'.
Proof.
  intros Hc. rewrite scan_line_cases.
  destruct (recognised_execve line) as [[[e n] a]|]; [eauto|].
  destruct (recognised_clone line) as [d|] eqn:Hd; [|eauto].
  destruct (Hc d Hd) as [p ->]. eauto.
Qed.

(** ** Where a call line ends: the text after the last [ = ] *)

Lemma starts_with_app pat v : starts_with pat (pat ++ v) = true.
Proof.
  induction pat as [|p pat IH]; simpl; [done|].
  by rewrite Ascii.eqb_refl, IH.
Qed.

Lemma contains_here pat s : starts_with pat s = true -> contains pat s = true.
Proof. intros H. destruct s; simpl; by rewrite H. Qed.

Lemma contains_app pat u v : contains pat (u ++ pat ++ v) = true.
Proof.
  induction u as [|c u IH].
  - apply contains_here. exact (starts_with_app pat v).
  - cbn [app contains]. rewrite IH. apply orb_true_r.
Qed.

Lemma split_first (q : ascii -> bool) c : forall a b x y,
  q c = false -> forallb q a = true -> forallb q b = true ->
  a ++ c :: x = b ++ c :: y -> a = b /\ x = y.
Proof.
  induction a as [|d a IH]; intros [|e b] x y Hc Ha Hb E; simpl in *.
  - by inversion E.
  - inversion E; subst. rewrite Hc in Hb. done.
  - inversion E; subst. rewrite Hc in Ha. done.
  - inversion E; subst.
    apply andb_true_iff in Ha as [_ Ha]. apply andb_true_iff in Hb as [_ Hb].
    destruct (IH b x y Hc Ha Hb H1) as [-> ->]. done.
Qed.

(** The same text read backwards: [a] holds no space, [b] holds no
    [ = ]; then [b] is [a], or [a] followed by a space and an equals
    sign. *)
Lemma tail_unique_rev : forall a b x y : text,
  Forall (fun c => c <> " "%char) a ->
  (forall u v, b <> u ++ str " = " ++ v) ->
  a ++ str " = " ++ x = b ++ str " = " ++ y ->
  b = a \/ b = a ++ str " =".
Proof.
  induction a as [|d a IH]; intros b x y Ha Hb E.
  - destruct b as [|c1 [|c2 [|c3 b]]]; simpl in E.
    + by left.
    + inversion E.
    + inversion E; subst. by right.
    + inversion E; subst. destruct (Hb [] b). done.
  - destruct b as [|c b]; simpl in E.
    + inversion E; subst. by inversion Ha.
    + inversion E; subst. inversion Ha; subst.
      destruct (IH b x y) as [->| ->]; auto.
      intros u v ->. by destruct (Hb (c :: u) v).
Qed.

Lemma rev_sep : rev (str " = ") = str " = ".
Proof. reflexivity. Qed.

(** Two ways to read the end of one line: as [ = r] with no further [ = ]
    in [r], and as [ = d] with no space in [d]. *)
Lemma tail_unique (x y r d : text) :
  contains (str " = ") r = false ->
  Forall (fun c => c <> " "%char) d ->
  x ++ str " = " ++ r = y ++ str " = " ++ d ->
  r = d \/ r = str "= " ++ d.
Proof.
  intros Hr Hd E. apply (f_equal (@rev ascii)) in E.
  rewrite !rev_app_distr, rev_sep, <- !app_assoc in E.
  symmetry in E.
  apply tail_unique_rev in E as [E|E].
  - left. by apply rev_inj.
  - right. apply rev_inj. rewrite E, rev_app_distr. done.
  - by apply List.Forall_rev.
  - intros u v E'. apply (f_equal (@rev ascii)) in E'.
    rewrite rev_involutive, !rev_app_distr, rev_sep, <- app_assoc in E'.
    rewrite E', contains_app in Hr. done.
Qed.

Lemma digits_no_space d :
  all_in (CRange "0" "9") d -> Forall (fun c => c <> " "%char) d.
Proof.
  induction d as [|c d IH]; intros H; constructor.
  - apply all_in_cons in H as [H _]. by intros ->.
  - apply IH. by apply all_in_cons in H as [_ H].
Qed.

Lemma digit_val_nonneg c : is_digit c = true -> 0 <= digit_val c.
Proof.
  unfold is_digit, digit_val. intros H.
  apply andb_true_iff in H as [H _]. apply N.leb_le in H. lia.
Qed.

Lemma int_digits_nonneg s : forall acc b c,
  0 <= acc -> int_digits s acc b = Some c -> 0 <= c.
Proof.
  induction s as [|a s IH]; simpl; intros acc b c Hacc H.
  - destruct b; congruence.
  - destruct (is_digit a) eqn:Ha.
    + eapply IH; [|exact H]. pose proof (digit_val_nonneg a Ha). lia.
    + destruct (Ascii.eqb a "_"); [|done].
      destruct b; [|done]. by eapply IH.
Qed.

Lemma return_value_digit c s v :
  is_digit c = true -> return_value (c :: s) = Some v -> 0 <= v.
Proof.
  intros Hc. unfold return_value.
  destruct c as [[] [] [] [] [] [] [] []]; try done;
    apply int_digits_nonneg; lia.
Qed.

(** ** Lines that report a failed call *)

Lemma execve_text_head pre e n a v :
  exists t, execve_text pre e n a v = pre ++ " "%char :: str "execve(" ++ t.
Proof. eexists. unfold execve_text. rewrite <- !app_assoc. reflexivity. Qed.

Lemma execve_text_tail pre e n a v :
  exists y, execve_text pre e n a v = y ++ str " = " ++ str "0".
Proof.
  exists (pre ++ (str " execve(" ++ [dq]) ++ e ++ (dq :: str ", [" ++ [dq])
            ++ n ++ [dq] ++ a ++ str "]" ++ v ++ str ")").
  unfold execve_text. rewrite <- !app_assoc. reflexivity.
Qed.

Lemma clone_text_head pre call a w d :
  exists t, clone_text pre call a w d = pre ++ " "%char :: call ++ t.
Proof. eexists. unfold clone_text. reflexivity. Qed.

Lemma clone_text_tail pre call a w d :
  exists y, clone_text pre call a w d = y ++ str " = " ++ d.
Proof.
  exists (pre ++ str " " ++ call ++ str "(" ++ a ++ str ")" ++ w).
  unfold clone_text. rewrite <- !app_assoc. reflexivity.
Qed.

Lemma contains_skip pat x y :
  contains pat y = true -> contains pat (x ++ y) = true.
Proof.
  intros H. induction x as [|c x IH]; [done|].
  cbn [app contains]. rewrite IH. apply orb_true_r.
Qed.

(** A text in the language of [RE_CLONE] names a creation call. *)
Lemma clone_names_creation s m :
  fullmatch RE_CLONE s = Some m -> names_creation s = true.
Proof.
  intros M. apply clone_shape in M
    as (pre & call & a & w & d & -> & [_ Hc _ _ _] & _).
  unfold names_creation, clone_text. apply orb_true_iff.
  destruct Hc as [-> | ->]; [left|right];
    apply contains_skip, contains_here; reflexivity.
Qed.

Section FailedCall.

Variables (line pre call a r : text) (c : Z).

Hypothesis line_shape :
  strip line = pre ++ call ++ str "(" ++ a ++ str " = " ++ r.
Hypothesis r_last : contains (str " = ") r = false.
Hypothesis r_value : return_value r = Some c.

Lemma line_tail :
  strip line = (pre ++ call ++ str "(" ++ a) ++ str " = " ++ r.
Proof. rewrite line_shape, <- !app_assoc. reflexivity. Qed.

(** [RE_EXECVE] wants the line to end in [ = 0]. *)
Lemma failed_execve_unrecognised :
  c <> 0 -> fullmatch RE_EXECVE (strip line) = None.
Proof.
  intros Hc.
  destruct (fullmatch RE_EXECVE (strip line)) as [m|] eqn:M; [|done].
  apply execve_shape in M as (pre' & e & n & a' & v & E & _ & _).
  destruct (execve_text_tail pre' e n a' v) as [y Ey].
  rewrite Ey, line_tail in E.
  apply tail_unique in E as [E|E]; [| |done|by repeat constructor].
  - rewrite E in r_value. vm_compute in r_value. congruence.
  - rewrite E in r_value. vm_compute in r_value. congruence.
Qed.

(** [RE_CLONE] wants the line to end in [ = ] and digits. *)
Lemma failed_clone_unrecognised :
  c < 0 -> fullmatch RE_CLONE (strip line) = None.
Proof.
  intros Hc.
  destruct (fullmatch RE_CLONE (strip line)) as [m|] eqn:M; [|done].
  apply clone_shape in M
    as (pre' & call' & a' & w & d & E & [_ _ _ _ [Hd1 Hd2]] & _).
  destruct (clone_text_tail pre' call' a' w d) as [y Ey].
  rewrite Ey, line_tail in E.
  apply tail_unique in E as [E|E]; [| |done|by apply digits_no_space].
  - destruct d as [|d0 d]; [done|]. apply all_in_cons in Hd2 as [Hd0 _].
    rewrite E in r_value. apply return_value_digit in r_value; [lia|done].
  - rewrite E in r_value. vm_compute in r_value. congruence.
Qed.

(** After a one-token prefix, the call [RE_CLONE] looks at is the call of
    the line. *)
Lemma execve_not_clone :
  call = str "execve" -> one_token pre ->
  fullmatch RE_CLONE (strip line) = None.
Proof.
  intros Hcall (tok & Hpre & Htok).
  destruct (fullmatch RE_CLONE (strip line)) as [m|] eqn:M; [|done].
  apply clone_shape in M
    as (pre' & call' & a' & w & d & E & [[_ Hp] Hc _ _ _] & _).
  destruct (clone_text_head pre' call' a' w d) as [t Et].
  rewrite Et, line_shape, Hpre, Hcall, <- app_assoc in E.
  apply (split_first (cmem CNotSpace)) in E as [_ E]; [|done..].
  destruct Hc as [-> | ->]; discriminate E.
Qed.

Lemma unnamed_creation_not_clone :
  names_creation (strip line) = false ->
  fullmatch RE_CLONE (strip line) = None.
Proof.
  intros Hn.
  destruct (fullmatch RE_CLONE (strip line)) as [m|] eqn:M; [|done].
  apply clone_names_creation in M. congruence.
Qed.

End FailedCall.

Lemma unrecognised_line self line :
  fullmatch RE_EXECVE (strip line) = None ->
  fullmatch RE_CLONE (strip line) = None ->
  scan_line self line = Ok self.
Proof. unfold scan_line. by intros -> ->. Qed.


(** The condition on a positive number is needed: a line that starts with
    [execve(] and goes on as a creation line is read as one. *)
Example positive_return_read_as_creation :
  scan_line (new_record (str "trace.100") 100)
    (str "execve( clone() = 5" ++ [LF])
    = Ok (add_clone (new_record (str "trace.100") 100) 5).
Proof. vm_compute. reflexivity. Qed.


(** A line [RE_CLONE] recognises is none [RE_EXECVE] recognises. *)
Lemma recognised_clone_not_execve line d :
  recognised_clone line = Some d -> recognised_execve line = None.
Proof.
  unfold recognised_clone, recognised_execve.
  destruct (fullmatch RE_CLONE (strip line)) as [m|] eqn:M; [|done].
  intros _.
  destruct (fullmatch RE_EXECVE (strip line)) as [m'|] eqn:M'; [|done].
  apply clone_shape in M
    as (pre & call & a & w & d' & E & [[_ Hp] Hc _ _ _] & _).
  apply execve_shape in M'
    as (pre' & e & n & a' & v & E' & [[_ Hp'] _ _ _ _] & _).
  rewrite E in E'. unfold clone_text, execve_text in E'. simpl in E'.
  apply (split_first (cmem CNotSpace)) in E' as [_ E']; [|done..].
  destruct Hc as [-> | ->]; discriminate E'.
Qed.

(** ** The scan of a whole file *)

Lemma for_each_app {A S} (body : S -> A -> result S) xs ys st :
  for_each body (xs ++ ys) st
    = (st' ← for_each body xs st; for_each body ys st').
Proof.
  revert st. induction xs as [|x xs IH]; intros st; simpl; [done|].
  destruct (body st x); simpl; [apply IH|done].
Qed.

Lemma scan_total lines : forall self,
  Forall pid_converts lines ->
  exists r, for_each scan_line lines self = Ok r.
Proof.
  induction lines as [|l lines IH]; intros self H; simpl; [eauto|].
  inversion H as [|? ? Hl Hls]; subst.
  destruct (scan_line_total self l Hl) as [self' ->]. simpl. by apply IH.
Qed.

(** Once [named] is set, no line writes them again. *)
Lemma scan_line_named self line r :
  named self = true -> scan_line self line = Ok r -> same_image r self.
Proof.
  intros Hn. rewrite scan_line_cases.
  destruct (recognised_execve line) as [[[e n] a]|].
  - rewrite Hn. by intros [= <-].
  - destruct (recognised_clone line) as [d|]; [|by intros [= <-]].
    destruct (py_int d); [|done]. by intros [= <-].
Qed.

Lemma scan_named lines : forall self r,
  named self = true -> for_each scan_line lines self = Ok r ->
  same_image r self.
Proof.
  induction lines as [|l lines IH]; simpl; intros self r Hn H.
  - by inversion H.
  - destruct (scan_line self l) as [self'|] eqn:Hl; [|done]. simpl in H.
    destruct (scan_line_named _ _ _ Hn Hl) as (H1 & H2 & H3 & H4).
    destruct (IH self' r) as (I1 & I2 & I3 & I4); [congruence|done|].
    repeat split; congruence.
Qed.

(** A line [RE_EXECVE] does not recognise writes none of them. *)
Lemma scan_line_other self line r :
  recognised_execve line = None -> scan_line self line = Ok r ->
  same_image r self.
Proof.
  intros Hn. rewrite scan_line_cases, Hn.
  destruct (recognised_clone line) as [d|]; [|by intros [= <-]].
  destruct (py_int d); [|done]. by intros [= <-].
Qed.

Lemma scan_others lines : forall self r,
  Forall (fun l => recognised_execve l = None) lines ->
  for_each scan_line lines self = Ok r -> same_image r self.
Proof.
  induction lines as [|l lines IH]; simpl; intros self r H E.
  - by inversion E.
  - inversion H as [|? ? Hl Hls]; subst.
    destruct (scan_line self l) as [self'|] eqn:El; [|done]. simpl in E.
    destruct (scan_line_other _ _ _ Hl El) as (H1 & H2 & H3 & H4).
    destruct (IH self' r Hls E) as (I1 & I2 & I3 & I4).
    repeat split; congruence.
Qed.

(** The scan up to and including the first recognised [execve] line, and
    on through any lines after it. *)
Lemma scan_first_execve pre l post self e n a r :
  named self = false ->
  Forall (fun x => recognised_execve x = None) pre ->
  recognised_execve l = Some (e, n, a) ->
  for_each scan_line (pre ++ l :: post) self = Ok r ->
  named r = true /\ execve r = Some e /\ name r = Some n /\
  args r = Some (dq :: n ++ dq :: a).
Proof.
  intros Hn Hpre Hl E. rewrite for_each_app in E.
  destruct (for_each scan_line pre self) as [r1|] eqn:E1; [|done].
  destruct (scan_others pre self r1 Hpre E1) as (N1 & _).
  cbn [mbind result_bind for_each] in E.
  rewrite scan_line_cases, Hl, N1, Hn in E. cbn [mbind result_bind] in E.
  apply scan_named in E as (H1 & H2 & H3 & H4); [|done].
  rewrite H1, H2, H3, H4. done.
Qed.

(** The scan returns on lines whose pids [int] reads, and only on those. *)
Lemma scan_returns lines : forall self,
  (exists r, for_each scan_line lines self = Ok r) <->
  Forall pid_converts lines.
Proof.
  induction lines as [|l lines IH]; intros self.
  - split; [constructor|by eexists].
  - split.
    + intros [r E]. cbn [for_each] in E.
      destruct (scan_line self l) as [self'|] eqn:El; [|done].
      cbn [mbind result_bind] in E. constructor.
      * intros d Hd. rewrite scan_line_cases in El.
        rewrite (recognised_clone_not_execve _ _ Hd), Hd in El.
        by destruct (py_int d).
      * apply (IH self'). by exists r.
    + apply scan_total.
Qed.

(** When the scan raises, it raises [ValueError]. *)
Lemma scan_raises lines : forall self e,
  for_each scan_line lines self = Raise e -> e = ValueError.
Proof.
  induction lines as [|l lines IH]; intros self e E; [done|].
  cbn [for_each] in E.
  destruct (scan_line self l) as [self'|e'] eqn:El.
  - by apply (IH self').
  - cbn [mbind result_bind] in E. injection E as <-.
    rewrite scan_line_cases in El.
    destruct (recognised_execve l) as [[[? ?] ?]|]; [done|].
    destruct (recognised_clone l) as [d|]; [|done].
    destruct (py_int d); [done|]. by injection El.
Qed.

(** ** The record of a file *)

Lemma StraceFile_init_scan fs fname p content :
  filename_pid fname = Ok p -> fs fname = Some content ->
  StraceFile_init fs fname =
    for_each scan_line (file_lines content) (new_record fname p).
Proof. unfold StraceFile_init. by intros -> ->. Qed.

Lemma head_omap {A B} (f : A -> option B) (xs : list A) y :
  head (omap f xs) = Some y ->
  exists pre x post,
    xs = pre ++ x :: post /\ Forall (fun z => f z = None) pre /\ f x = Some y.
Proof.
  induction xs as [|x xs IH]; simpl; [done|].
  destruct (f x) as [y'|] eqn:E; simpl.
  - intros [= ->]. exists [], x, xs. auto.
  - intros (pre & x' & post & -> & Hpre & Hx)%IH.
    exists (x :: pre), x', post. auto.
Qed.

(** C3, as amended. When a file shows at least one recognised successful
    [execve] line, the [execve] field of the record made of it is the
    quoted path of the first such line; and a record is made of it when
    [int] reads the pid of each of its creation lines. *)
Theorem executed_path_is_first_exec
    (fs : filesystem) (fname content e n a : text) (p : Z) :
  filename_pid fname = Ok p ->
  fs fname = Some content ->
  head (execs_of content) = Some (e, n, a) ->
  (forall r, StraceFile_init fs fname = Ok r -> execve r = Some e) /\
  (Forall pid_converts (file_lines content) ->
   exists r, StraceFile_init fs fname = Ok r /\ execve r = Some e).
Proof.
  intros Hp Hc Hh. rewrite (StraceFile_init_scan _ _ _ _ Hp Hc).
  apply head_omap in Hh as (pre & l & post & E & Hpre & Hl).
  unfold execs_of in E. rewrite E.
  assert (G : forall r,
            for_each scan_line (pre ++ l :: post) (new_record fname p) = Ok r
            -> execve r = Some e).
  { intros r Hr.
    by destruct (scan_first_execve pre l post (new_record fname p) e n a r)
      as (_ & He & _). }
  split; [exact G|].
  intros Hall.
  destruct (scan_total (pre ++ l :: post) (new_record fname p) Hall)
    as [r Hr].
  exists r. split; [done|]. by apply G.
Qed.

(** C4. From the first recognised successful [execve] line on, [name] and
    [args] hold what that line gave, after each later line of the file
    ([take k post] for every [k]) and in the finished record; and the
    scan gets that far, and the record is made, when [int] reads the pid
    of each creation line of the file. *)
Theorem first_exec_fixes_name_and_args
    (fs : filesystem) (fname content : text) (p : Z)
    (pre : list text) (l : text) (post : list text) (e n a : text) :
  filename_pid fname = Ok p ->
  fs fname = Some content ->
  file_lines content = pre ++ l :: post ->
  Forall (fun x => recognised_execve x = None) pre ->
  recognised_execve l = Some (e, n, a) ->
  (forall k r,
     for_each scan_line (pre ++ l :: take k post) (new_record fname p) = Ok r
     -> name r = Some n /\ args r = Some (dq :: n ++ dq :: a)) /\
  (forall r, StraceFile_init fs fname = Ok r ->
     name r = Some n /\ args r = Some (dq :: n ++ dq :: a)) /\
  (Forall pid_converts (file_lines content) ->
   (forall k, exists r,
      for_each scan_line (pre ++ l :: take k post) (new_record fname p)
        = Ok r) /\
   exists r, StraceFile_init fs fname = Ok r).
Proof.
  intros Hp Hc Hl Hpre Hm.
  rewrite (StraceFile_init_scan _ _ _ _ Hp Hc), Hl.
  split; [|split].
  - intros k r E.
    by destruct (scan_first_execve pre l (take k post) (new_record fname p)
                   e n a r) as (_ & _ & Hn & Ha).
  - intros r E.
    by destruct (scan_first_execve pre l post (new_record fname p) e n a r)
      as (_ & _ & Hn & Ha).
  - intros Hall. split; [|by apply scan_total].
    intros k. apply scan_total.
    apply Forall_app in Hall as [H1 H2].
    apply Forall_cons in H2 as [H2 H3].
    apply Forall_app. split; [done|]. apply Forall_cons. split; [done|].
    by apply Forall_take.
Qed.

Lemma executed_path_is_first_exec_witness :
  exists r, StraceFile_init fs_two_execs (str "trace.7") = Ok r /\
    execve r = Some (str "/bin/a").
Proof.
  refine (proj2 (executed_path_is_first_exec fs_two_execs (str "trace.7")
                   two_execs (str "/bin/a") (str "a")
                   (str ", " ++ [dq] ++ str "x" ++ [dq]) 7 _ _ _) _).
  - vm_compute; reflexivity.
  - vm_compute; reflexivity.
  - vm_compute; reflexivity.
  - repeat constructor; intros d Hd; vm_compute in Hd; discriminate Hd.
Defined.

(** C3 as stated fails: the path of the last recognised [execve] line of
    [two_execs] is [/bin/b], the record keeps [/bin/a]. *)
Lemma executed_path_not_last_exec :
  ~ (forall (fs : filesystem) (fname content e n a : text) (r : StraceFile),
       fs fname = Some content ->
       StraceFile_init fs fname = Ok r ->
       last (execs_of content) = Some (e, n, a) ->
       execve r = Some e).
Proof.
  intros H.
  assert (exists r, StraceFile_init fs_two_execs (str "trace.7") = Ok r /\
                    execve r = Some (str "/bin/a")) as (r & E & Hr).
  { eexists. split; vm_compute; reflexivity. }
  specialize (H fs_two_execs (str "trace.7") two_execs (str "/bin/b")
                (str "b") (str ", " ++ [dq] ++ str "y" ++ [dq]) r).
  rewrite Hr in H. discriminate H.
  - vm_compute; reflexivity.
  - exact E.
  - vm_compute; reflexivity.
Qed.

Lemma first_exec_fixes_name_and_args_witness :
  (forall k r,
     for_each scan_line
       ([] ++ (exec_a ++ [LF]) :: take k [exec_b ++ [LF]])
       (new_record (str "trace.7") 7) = Ok r ->
     name r = Some (str "a") /\
     args r
       = Some (dq :: str "a" ++ dq :: str ", " ++ [dq] ++ str "x" ++ [dq]))
  /\ (forall r, StraceFile_init fs_two_execs (str "trace.7") = Ok r ->
       name r = Some (str "a") /\
       args r
         = Some (dq :: str "a" ++ dq :: str ", " ++ [dq] ++ str "x" ++ [dq]))
  /\ (forall k, exists r,
        for_each scan_line
          ([] ++ (exec_a ++ [LF]) :: take k [exec_b ++ [LF]])
          (new_record (str "trace.7") 7) = Ok r)
  /\ exists r, StraceFile_init fs_two_execs (str "trace.7") = Ok r.
Proof.
  assert (P1 : filename_pid (str "trace.7") = Ok 7)
    by (vm_compute; reflexivity).
  assert (P2 : fs_two_execs (str "trace.7") = Some two_execs)
    by (vm_compute; reflexivity).
  assert (P3 : file_lines two_execs = [] ++ (exec_a ++ [LF]) :: [exec_b ++ [LF]])
    by (vm_compute; reflexivity).
  assert (P4 : Forall (fun x => recognised_execve x = None) ([] : list text))
    by constructor.
  assert (P5 : recognised_execve (exec_a ++ [LF])
               = Some (str "/bin/a", str "a",
                       str ", " ++ [dq] ++ str "x" ++ [dq]))
    by (vm_compute; reflexivity).
  destruct (first_exec_fixes_name_and_args fs_two_execs (str "trace.7")
              two_execs 7 [] (exec_a ++ [LF]) [exec_b ++ [LF]]
              (str "/bin/a") (str "a") (str ", " ++ [dq] ++ str "x" ++ [dq])
              P1 P2 P3 P4 P5) as (H1 & H2 & H3).
  split; [exact H1|]. split; [exact H2|]. apply H3.
  rewrite P3.
  repeat constructor; intros d Hd; vm_compute in Hd; discriminate Hd.
Defined.

(** ** A bracketed list that holds the display name only *)

Lemma all_in_not_mid c x y : all_in (CNot c) (x ++ c :: y) -> False.
Proof.
  intros [_ H]%all_in_app. apply all_in_cons in H as [H _].
  simpl in H. by rewrite Ascii.eqb_refl in H.
Qed.

(** When two lines of the [execve] shape are the same text, they have the
    same prefix, path and display name, and the same text after the
    display name. *)
Lemma execve_text_inj pre e n a v pre' e' n' a' v' :
  all_in CNotSpace pre -> all_in (CNot dq) e -> all_in (CNot dq) n ->
  all_in CNotSpace pre' -> all_in (CNot dq) e' -> all_in (CNot dq) n' ->
  execve_text pre e n a v = execve_text pre' e' n' a' v' ->
  pre = pre' /\ e = e' /\ n = n' /\
  a ++ str "]" ++ v ++ str ") = 0" = a' ++ str "]" ++ v' ++ str ") = 0".
Proof.
  intros Hp He Hn Hp' He' Hn' E. unfold execve_text in E. simpl in E.
  apply (split_first (cmem CNotSpace)) in E as [-> E]; [|done..].
  simplify_eq.
  match goal with H : _ ++ _ = _ ++ _ |- _ =>
    apply (split_first (cmem (CNot dq))) in H as [-> H]; [|done..] end.
  simplify_eq.
  match goal with H : _ ++ _ = _ ++ _ |- _ =>
    apply (split_first (cmem (CNot dq))) in H as [-> H]; [|done..] end.
  done.
Qed.

(** C7, on the code. A successful [execve] line whose bracketed list holds
    the display name and nothing else, and whose text after the list holds
    no further closing bracket, is not recognised: reading it leaves the
    record as it was. *)
Theorem single_name_list_unrecognised
    (self : StraceFile) (line pre e n v : text) :
  strip line = execve_text pre e n [] v ->
  all_in CNotSpace pre -> all_in (CNot dq) e -> all_in (CNot dq) n ->
  all_in (CNot "]") v ->
  recognised_execve line = None /\ scan_line self line = Ok self.
Proof.
  intros Hs Hp He Hn Hv.
  assert (Hx : fullmatch RE_EXECVE (strip line) = None).
  { destruct (fullmatch RE_EXECVE (strip line)) as [m|] eqn:M; [|done].
    apply execve_shape in M as (pre' & e' & n' & a' & v' & E & P & _).
    destruct P as [[_ Hp'] [_ He'] Hn' [Ha' _] _].
    rewrite Hs in E.
    apply execve_text_inj in E as (_ & _ & _ & E); [|done..].
    destruct a' as [|c a']; [done|]. simpl in E. simplify_eq.
    destruct (all_in_not_mid "]" a' (v' ++ str ") = 0")).
    match goal with H : v ++ _ = _ |- _ => simpl; rewrite <- H end.
    by apply all_in_app. }
  split.
  - unfold recognised_execve. by rewrite Hx.
  - apply unrecognised_line; [done|].
    destruct (fullmatch RE_CLONE (strip line)) as [m|] eqn:M; [|done].
    apply clone_shape in M
      as (pre' & call' & a' & w & d & E & [[_ Hp'] Hc _ _ _] & _).
    rewrite Hs in E. unfold execve_text, clone_text in E. simpl in E.
    apply (split_first (cmem CNotSpace)) in E as [_ E]; [|done..].
    destruct Hc as [-> | ->]; discriminate E.
Qed.

Lemma single_name_list_unrecognised_witness :
  recognised_execve (exec_ls ++ [LF]) = None /\
  scan_line (new_record (str "trace.100") 100) (exec_ls ++ [LF])
    = Ok (new_record (str "trace.100") 100).
Proof.
  apply (single_name_list_unrecognised _ (exec_ls ++ [LF]) (str "1")
           (str "/bin/ls") (str "ls") (str ", 0x7ffc /* 3 vars */")).
  - vm_compute; reflexivity.
  - vm_compute; reflexivity.
  - vm_compute; reflexivity.
  - vm_compute; reflexivity.
  - vm_compute; reflexivity.
Defined.

(** ** Lines the pattern recognises *)

Lemma matches_lit_intro t g : matches (lit t) t g g.
Proof.
  induction t as [|c t IH]; simpl; [constructor|].
  apply (m_seq _ _ [c] t g g g); [|done].
  constructor. simpl. apply Ascii.eqb_refl.
Qed.

Lemma matches_plus_intro cl s g :
  s <> [] -> all_in cl s -> matches (Plus cl) s g g.
Proof.
  intros Hne H. destruct s as [|c s]; [done|].
  apply all_in_cons in H as [Hc Hs].
  apply (m_seq _ _ [c] s g g g); by constructor.
Qed.

(** Every line of the [execve] shape is in the language of [RE_EXECVE]. *)
Lemma execve_text_matches pre e n a v :
  execve_parts pre e n a v ->
  matches RE_EXECVE (execve_text pre e n a v) ∅
    (<["args" := a]> (<["name" := n]> (<["exec" := e]> ∅))).
Proof.
  intros [[? ?] [? ?] ? [? ?] [? ?]].
  unfold RE_EXECVE, execve_text. cbv [seqs].
  apply m_seq with (g1 := ∅); [by apply matches_plus_intro|].
  apply m_seq with (g1 := ∅); [apply matches_lit_intro|].
  eapply m_seq; [apply m_group; by apply matches_plus_intro|].
  eapply m_seq; [apply matches_lit_intro|].
  eapply m_seq; [apply m_group; by apply m_star|].
  eapply m_seq; [apply matches_lit_intro|].
  eapply m_seq; [apply m_group; by apply matches_plus_intro|].
  eapply m_seq; [apply matches_lit_intro|].
  eapply m_seq; [by apply matches_plus_intro|].
  apply matches_lit_intro.
Qed.

Lemma rstrip_snoc p s c : p c = true -> rstrip_by p (s ++ [c]) = rstrip_by p s.
Proof.
  intros H. unfold rstrip_by. rewrite rev_app_distr. simpl. by rewrite H.
Qed.

Lemma lstrip_snoc p c : p c = true -> forall s,
  lstrip_by p (s ++ [c]) = [] /\ lstrip_by p s = [] \/
  lstrip_by p (s ++ [c]) = lstrip_by p s ++ [c].
Proof.
  intros H. induction s as [|d s IH]; simpl.
  - rewrite H. by left.
  - destruct (p d); [apply IH|by right].
Qed.

(** A trailing whitespace character, such as the line feed of a line read
    from a file, does not show after [strip]. *)
Lemma strip_snoc p s c : p c = true -> strip_by p (s ++ [c]) = strip_by p s.
Proof.
  intros H. unfold strip_by.
  destruct (lstrip_snoc p c H s) as [[-> ->]| ->]; [done|].
  by apply rstrip_snoc.
Qed.

Lemma execve_text_strip pre e n a v :
  pre <> [] -> all_in CNotSpace pre ->
  strip (execve_text pre e n a v) = execve_text pre e n a v.
Proof.
  intros Hne Hp. destruct pre as [|c pre]; [done|].
  apply all_in_cons in Hp as [Hc _]. simpl in Hc.
  apply negb_true_iff in Hc.
  assert (E : execve_text (c :: pre) e n a v
              = c :: (pre ++ (str " execve(" ++ [dq]) ++ e
                        ++ (dq :: str ", [" ++ [dq]) ++ n ++ [dq] ++ a
                        ++ str "]" ++ v ++ str ") = ") ++ ["0"%char]).
  { unfold execve_text. simpl. f_equal.
    repeat (progress (rewrite <- ?app_assoc; simpl)). reflexivity. }
  rewrite E. by apply strip_id.
Qed.

(** One bracket only: the text before it is determined. *)
Lemma split_only c : forall a x y z : text,
  all_in (CNot c) a -> all_in (CNot c) z ->
  x ++ c :: y = a ++ c :: z -> x = a /\ y = z.
Proof.
  induction a as [|d a IH]; intros x y z Ha Hz E.
  - destruct x as [|d x]; simpl in E; [by inversion E|].
    inversion E; subst. by destruct (all_in_not_mid _ _ _ Hz).
  - apply all_in_cons in Ha as [Hd Ha]. destruct x as [|d' x]; simpl in E.
    + inversion E; subst. simpl in Hd. by rewrite Ascii.eqb_refl in Hd.
    + inversion E; subst. destruct (IH x y z Ha Hz) as [-> ->]; done.
Qed.

(** A line of the [execve] shape is recognised, with its path and display
    name; the rest of the bracketed list is captured as written when no
    closing bracket shows in it or after it. *)
Lemma execve_recognised line pre e n a v :
  strip line = execve_text pre e n a v ->
  execve_parts pre e n a v ->
  exists a', recognised_execve line = Some (e, n, a') /\
    (all_in (CNot "]") a -> all_in (CNot "]") v -> a' = a).
Proof.
  intros Hs Hparts. unfold recognised_execve. rewrite Hs.
  destruct (fullmatch_complete _ _ _ _ (execve_text_matches _ _ _ _ _ Hparts))
    as [m M].
  rewrite M. simpl.
  apply execve_shape in M as (pre' & e' & n' & a' & v' & E & P & ->).
  destruct Hparts as [[_ Hp] [_ He] Hn _ _].
  destruct P as [[_ Hp'] [_ He'] Hn' _ _].
  apply execve_text_inj in E as (-> & -> & -> & E); [|done..].
  exists a'. simplify_map_eq. split; [done|].
  intros Ha Hv. symmetry in E. apply (split_only "]") in E as [E _]; [done..|].
  apply all_in_app. split; [done|]. reflexivity.
Qed.

(** ** Lines of a file *)

Lemma lines_from_line s : forall cur rest,
  no_newline s ->
  lines_from cur (s ++ LF :: rest)
    = (rev cur ++ s ++ [LF]) :: lines_from [] rest.
Proof.
  induction s as [|c s IH]; intros cur rest H.
  - reflexivity.
  - unfold no_newline in H. cbn [forallb] in H.
    apply andb_true_iff in H as [Hc Hs].
    apply andb_true_iff in Hc as [H1 H2].
    apply negb_true_iff in H1, H2.
    cbn [app lines_from]. rewrite H1, H2, (IH (c :: cur) rest Hs).
    simpl. by rewrite <- app_assoc.
Qed.

Lemma file_lines_two l1 l2 :
  no_newline l1 -> no_newline l2 ->
  file_lines (l1 ++ [LF] ++ l2 ++ [LF]) = [l1 ++ [LF]; l2 ++ [LF]].
Proof.
  intros H1 H2. unfold file_lines. simpl app.
  rewrite (lines_from_line l1 [] _ H1). simpl rev. simpl app at 1.
  by rewrite (lines_from_line l2 [] [] H2).
Qed.

Lemma not_space_no_newline s : all_in CNotSpace s -> no_newline s.
Proof.
  unfold no_newline. induction s as [|c s IH]; intros H; [done|].
  apply all_in_cons in H as [Hc Hs]. cbn [forallb]. rewrite (IH Hs).
  rewrite andb_true_r. clear -Hc.
  destruct c as [[] [] [] [] [] [] [] []]; done.
Qed.

Lemma no_newline_app s t : no_newline s -> no_newline t -> no_newline (s ++ t).
Proof. unfold no_newline. intros H1 H2. by rewrite forallb_app, H1, H2. Qed.

(** ** The pid in a file name *)

Lemma split_on_dot s :
  split_on "." s =
    before_dot s :: match after_dot s with
                    | Some t => split_on "." t
                    | None => []
                    end.
Proof.
  induction s as [|c s IH]; simpl; [done|].
  destruct (Ascii.eqb c "."); [done|]. by rewrite IH.
Qed.

Lemma split_on_second fname :
  split_on "." fname !! 1%nat = pid_component fname.
Proof.
  unfold pid_component. rewrite split_on_dot. simpl.
  destruct (after_dot fname) as [t|]; [|done].
  by rewrite split_on_dot.
Qed.

Lemma for_each_raises {A S} (body : S -> A -> result S) x :
  (forall st, exists e, body st x = Raise e) ->
  forall xs st, x ∈ xs -> exists e, for_each body xs st = Raise e.
Proof.
  intros Hx xs. induction xs as [|y xs IH]; intros st Hin.
  - by apply elem_of_nil in Hin.
  - simpl. apply elem_of_cons in Hin as [<-|Hin].
    + destruct (Hx st) as [e ->]. by exists e.
    + destruct (body st y) as [st'|e]; simpl; [by apply IH|by exists e].
Qed.

(** C8. When a file name has no dot, or [int] rejects the component
    between its first and second dot, no record is made of it:
    [StraceFile] raises, whatever the file holds, and so does [processes]
    on every list of names the name is in. *)
Theorem malformed_filename_fails (fs : filesystem) (fname : text) :
  pid_component fname = None \/
  (exists comp, pid_component fname = Some comp /\ py_int comp = None) ->
  (exists e, StraceFile_init fs fname = Raise e) /\
  (forall names, fname ∈ names -> exists e, processes fs names = Raise e).
Proof.
  intros H.
  assert (Hi : exists e, StraceFile_init fs fname = Raise e).
  { unfold StraceFile_init, filename_pid. rewrite split_on_second.
    destruct H as [-> | (comp & -> & Hc)]; simpl.
    - by exists IndexError.
    - rewrite Hc. by exists ValueError. }
  split; [done|].
  intros names Hin. unfold processes. apply for_each_raises with fname; [|done].
  intros st. unfold processes_step. destruct Hi as [e ->]. by exists e.
Qed.

Lemma malformed_filename_fails_witness :
  (exists e, StraceFile_init fs_two_execs (str "trace.log") = Raise e) /\
  (forall names, str "trace.log" ∈ names ->
     exists e, processes fs_two_execs names = Raise e).
Proof.
  apply (malformed_filename_fails fs_two_execs (str "trace.log")).
  right. exists (str "log"). split; vm_compute; reflexivity.
Defined.

(** ** The two loops of [tree] *)

Module TreeFacts.

Lemma insert_alter (h : heap) l p f :
  h !! l = Some p -> <[l := f p]> h = alter f l h.
Proof.
  intros H. apply list_eq. intros i. destruct (decide (l = i)) as [<-|Hne].
  - rewrite list_lookup_alter_eq, H. simpl.
    apply list_lookup_insert_eq. by eapply lookup_lt_Some.
  - by rewrite list_lookup_insert_ne, list_lookup_alter_ne.
Qed.

Lemma alter_absent (h : heap) l f : h !! l = None -> alter f l h = h.
Proof.
  intros H. apply list_eq. intros i. destruct (decide (l = i)) as [<-|Hne].
  - by rewrite list_lookup_alter_eq, H.
  - by rewrite list_lookup_alter_ne.
Qed.

Lemma alter_all_lookup f ls :
  (forall p, f (f p) = f p) ->
  forall (h : heap) l,
    alter_all f ls h !! l = if decide (l ∈ ls) then f <$> h !! l else h !! l.
Proof.
  intros Hf. induction ls as [|l0 ls IH]; intros h l.
  - rewrite decide_False; [done | apply not_elem_of_nil].
  - change (alter_all f (l0 :: ls) h) with (alter_all f ls (alter f l0 h)).
    rewrite IH. destruct (decide (l0 = l)) as [<-|Hne].
    + rewrite list_lookup_alter_eq.
      rewrite (decide_True _ _ (list_elem_of_here l0 ls)).
      destruct (decide (l0 ∈ ls)); destruct (h !! l0); simpl; by rewrite ?Hf.
    + rewrite list_lookup_alter_ne by done.
      destruct (decide (l ∈ ls)) as [Hin|Hnin];
        destruct (decide (l ∈ l0 :: ls)) as [Hin'|Hnin']; try done.
      * destruct Hnin'. by right.
      * apply elem_of_cons in Hin' as [->|Hin']; done.
Qed.

Lemma foldl_pointwise {A B} (f g : A -> B -> A) (xs : list B) :
  (forall a b, f a b = g a b) -> forall a, foldl f a xs = foldl g a xs.
Proof.
  intros H. induction xs as [|x xs IH]; intros a; simpl; [done|].
  by rewrite H, IH.
Qed.

Lemma clones_at_alter f (h : heap) l0 l :
  (forall p, clones (f p) = clones p) ->
  clones_at (alter f l0 h) l = clones_at h l.
Proof.
  intros Hf. unfold clones_at. destruct (decide (l0 = l)) as [<-|Hne].
  - rewrite list_lookup_alter_eq. destruct (h !! l0); simpl; by rewrite ?Hf.
  - by rewrite list_lookup_alter_ne.
Qed.

Lemma pid_at_alter f (h : heap) l0 l :
  (forall p, pid (f p) = pid p) -> pid_at (alter f l0 h) l = pid_at h l.
Proof.
  intros Hf. unfold pid_at. destruct (decide (l0 = l)) as [<-|Hne].
  - rewrite list_lookup_alter_eq. destruct (h !! l0); simpl; by rewrite ?Hf.
  - by rewrite list_lookup_alter_ne.
Qed.

Lemma pid_at_alter_all f ls : forall (h : heap) l,
  (forall p, pid (f p) = pid p) -> pid_at (alter_all f ls h) l = pid_at h l.
Proof.
  induction ls as [|l0 ls IH]; intros h l Hf; [done|].
  change (alter_all f (l0 :: ls) h) with (alter_all f ls (alter f l0 h)).
  rewrite IH by done. by apply pid_at_alter.
Qed.

Lemma tree_loop1_step procs cl (h : heap) l :
  tree_loop1 procs (cl, h) l
    = (cl ∪ clones_at h l, alter (with_children procs) l h).
Proof.
  unfold tree_loop1, clones_at. simpl. destruct (h !! l) as [p|] eqn:E; simpl.
  - by rewrite (insert_alter h l p _ E).
  - by rewrite alter_absent, (right_id_L ∅ (∪)).
Qed.

Lemma tree_loop1_fold procs ls : forall cl (h : heap),
  foldl (tree_loop1 procs) (cl, h) ls
    = (cl ∪ ⋃ (clones_at h <$> ls), alter_all (with_children procs) ls h).
Proof.
  induction ls as [|l0 ls IH]; intros cl h; simpl.
  - by rewrite (right_id_L ∅ (∪)).
  - rewrite tree_loop1_step, IH.
    assert (E : clones_at (alter (with_children procs) l0 h) <$> ls
                = clones_at h <$> ls).
    { apply list_fmap_ext. intros ? l ?. by apply clones_at_alter. }
    rewrite E. simpl. by rewrite (assoc_L (∪)).
Qed.

Lemma relabel_pid cl p : pid (relabel cl p) = pid p.
Proof. unfold relabel. by repeat case_match. Qed.

Lemma tree_loop2_step cl (h : heap) m l :
  tree_loop2 cl (h, m) l = (alter (relabel cl) l h, inits_step h cl m l).
Proof.
  unfold tree_loop2, inits_step, pid_at. simpl.
  destruct (h !! l) as [p|] eqn:E; simpl.
  - by rewrite (insert_alter h l p _ E).
  - by rewrite alter_absent.
Qed.

Lemma tree_loop2_fold cl ls : forall (h : heap) m,
  foldl (tree_loop2 cl) (h, m) ls
    = (alter_all (relabel cl) ls h, foldl (inits_step h cl) m ls).
Proof.
  induction ls as [|l0 ls IH]; intros h m; simpl; [done|].
  rewrite tree_loop2_step, IH. f_equal.
  apply foldl_pointwise. intros m' l. unfold inits_step.
  by rewrite (pid_at_alter _ _ _ _ (relabel_pid cl)).
Qed.

Lemma inits_sound (h : heap) cl ls : forall m k l,
  foldl (inits_step h cl) m ls !! k = Some l ->
  m !! k = Some l \/ (l ∈ ls /\ pid_at h l = Some k /\ k ∉ cl).
Proof.
  induction ls as [|l0 ls IH]; intros m k l; simpl; [by left|].
  intros [H|(H1 & H2 & H3)]%IH.
  - unfold inits_step in H. destruct (pid_at h l0) as [k0|] eqn:E; [|by left].
    destruct (decide (k0 ∈ cl)); [by left|].
    apply lookup_insert_Some in H as [[<- <-]|[_ H]]; [|by left].
    right. split; [left|done].
  - right. split; [by right|done].
Qed.

Lemma inits_complete (h : heap) cl ls : forall m k l,
  k ∉ cl ->
  (forall l', l' ∈ ls -> pid_at h l' = Some k -> l' = l) ->
  m !! k = Some l \/ (l ∈ ls /\ pid_at h l = Some k) ->
  foldl (inits_step h cl) m ls !! k = Some l.
Proof.
  induction ls as [|l0 ls IH]; intros m k l Hk Hu H; simpl.
  - destruct H as [H|[H _]]; [done|]. by apply elem_of_nil in H.
  - apply IH; [done| |].
    + intros l' Hl'. apply Hu. by right.
    + unfold inits_step. destruct (pid_at h l0) as [k0|] eqn:E.
      * destruct (decide (k0 = k)) as [->|Hne].
        -- left. rewrite decide_False by done.
           rewrite (Hu l0 (list_elem_of_here _ _) E). apply lookup_insert_eq.
        -- destruct H as [H|[H1 H2]].
           ++ left. destruct (decide (k0 ∈ cl)); [done|].
              by rewrite lookup_insert_ne.
           ++ apply elem_of_cons in H1 as [->|H1]; [congruence|]. by right.
      * destruct H as [H|[H1 H2]]; [by left|].
        apply elem_of_cons in H1 as [->|H1]; [congruence|]. by right.
Qed.

Lemma elem_of_values procs l :
  l ∈ values procs <-> exists k, procs !! k = Some l.
Proof.
  unfold values. rewrite list_elem_of_fmap. split.
  - intros [[k l'] [-> H]]. exists k. by apply elem_of_map_to_list in H.
  - intros [k H]. exists (k, l). split; [done|]. by apply elem_of_map_to_list.
Qed.

End TreeFacts.

Import TreeFacts.

(** ** The forest *)

Lemma spawned_set_spec h procs x :
  x ∈ spawned_set h procs <-> all_spawned h procs x.
Proof.
  unfold spawned_set. rewrite elem_of_union_list. split.
  - intros (X & HX & Hx).
    apply list_elem_of_fmap in HX as (l & -> & Hl).
    apply elem_of_values in Hl as [k Hk]. unfold clones_at in Hx.
    destruct (h !! l) as [p|] eqn:E; simpl in Hx; [|set_solver].
    by exists k, l, p.
  - intros (k & l & p & Hk & Hl & Hx). exists (clones_at h l). split.
    + apply list_elem_of_fmap. exists l. split; [done|].
      apply elem_of_values. by exists k.
    + unfold clones_at. by rewrite Hl.
Qed.

Lemma with_children_idem procs p :
  with_children procs (with_children procs p) = with_children procs p.
Proof. reflexivity. Qed.

Lemma relabel_idem cl p : relabel cl (relabel cl p) = relabel cl p.
Proof. unfold relabel. destruct (named p) eqn:E; simpl; [by rewrite E|].
  destruct (decide (pid p ∈ cl)); simpl; rewrite E; simpl;
    by rewrite ?decide_True, ?decide_False by done.
Qed.

(** [tree] as two passes over the records of [procs]. *)
Lemma tree_eq h procs :
  tree h procs =
    (alter_all (relabel (spawned_set h procs)) (values procs)
       (alter_all (with_children procs) (values procs) h),
     foldl (inits_step h (spawned_set h procs)) ∅ (values procs)).
Proof.
  unfold tree. rewrite tree_loop1_fold. cbn [fst snd].
  rewrite tree_loop2_fold, (left_id_L ∅ (∪)). f_equal.
  apply foldl_pointwise. intros m l. unfold inits_step.
  by rewrite pid_at_alter_all.
Qed.

(** The object a record of [procs] has become when [tree] returns. *)
Lemma tree_record h procs k l p :
  procs !! k = Some l -> h !! l = Some p ->
  (tree h procs).1 !! l
    = Some (relabel (spawned_set h procs) (with_children procs p)).
Proof.
  intros Hk Hl. rewrite tree_eq. cbn [fst].
  assert (Hin : l ∈ values procs) by (apply elem_of_values; eauto).
  rewrite alter_all_lookup by apply relabel_idem.
  rewrite decide_True by done.
  rewrite alter_all_lookup by apply with_children_idem.
  rewrite decide_True by done. by rewrite Hl.
Qed.

Lemma alter_all_length f ls : forall h : heap,
  length (alter_all f ls h) = length h.
Proof.
  induction ls as [|l0 ls IH]; intros h; [done|].
  change (alter_all f (l0 :: ls) h) with (alter_all f ls (alter f l0 h)).
  by rewrite IH, length_alter.
Qed.

(** C1. In a collection keyed by pid, [tree] returns a record as a root
    exactly when its pid is in no record's [clones] set; the record's own
    [clones] and [children] play no part. *)
Theorem roots_are_the_unspawned (h : heap) (procs : gmap Z loc) :
  keyed_by_pid h procs ->
  forall k l,
    (tree h procs).2 !! k = Some l <->
    procs !! k = Some l /\ ~ all_spawned h procs k.
Proof.
  intros Hkey k l. rewrite tree_eq. cbn [snd].
  rewrite <- spawned_set_spec. split.
  - intros [H|(Hin & Hp & Hn)]%inits_sound; [by rewrite lookup_empty in H|].
    split; [|done].
    apply elem_of_values in Hin as [k' Hk'].
    destruct (Hkey _ _ Hk') as (p & Hl & <-).
    unfold pid_at in Hp. rewrite Hl in Hp. simpl in Hp. by simplify_eq.
  - intros [Hk Hn]. destruct (Hkey _ _ Hk) as (p & Hl & Hpid).
    apply inits_complete; [done| |].
    + intros l' [k' Hk']%elem_of_values Hp.
      destruct (Hkey _ _ Hk') as (p' & Hl' & <-).
      unfold pid_at in Hp. rewrite Hl' in Hp. simpl in Hp.
      simplify_eq. congruence.
    + right. split; [apply elem_of_values; eauto|].
      unfold pid_at. rewrite Hl. simpl. by rewrite Hpid.
Qed.

(** C2. After [tree], the [children] of a record of the collection are
    exactly the records that [procs] holds under a pid of its [clones]; a
    spawned pid that is no key of [procs] adds nothing. [tree] makes no
    object and leaves the record's [clones] as they were. *)
Theorem children_are_the_known_spawned
    (h : heap) (procs : gmap Z loc) (k : Z) (l : loc) (p : StraceFile) :
  procs !! k = Some l ->
  h !! l = Some p ->
  exists p' ch,
    (tree h procs).1 !! l = Some p' /\
    children p' = Some ch /\
    (forall l',
       l' ∈ ch <-> exists c, c ∈ clones p /\ procs !! c = Some l') /\
    clones p' = clones p /\
    length (tree h procs).1 = length h.
Proof.
  intros Hk Hl.
  exists (relabel (spawned_set h procs) (with_children procs p)),
         (children_of procs (clones p)).
  split; [by eapply tree_record|].
  split; [unfold relabel; by repeat case_match|].
  split; [intros l'; unfold children_of; by rewrite elem_of_set_omap|].
  split; [unfold relabel; by repeat case_match|].
  rewrite tree_eq. cbn [fst]. by rewrite !alter_all_length.
Qed.

(** C6. [tree] gives a record with no captured [execve] the label [clone]
    when its pid is in some record's [clones] set and the label [init]
    when it is in none; a record with a captured [execve] keeps its parsed
    name and path. *)
Theorem unnamed_records_are_labelled
    (h : heap) (procs : gmap Z loc) (k : Z) (l : loc) (p : StraceFile) :
  procs !! k = Some l ->
  h !! l = Some p ->
  exists p',
    (tree h procs).1 !! l = Some p' /\
    (named p = false -> all_spawned h procs (pid p) ->
       name p' = Some (str "clone") /\ execve p' = Some (str "clone")) /\
    (named p = false -> ~ all_spawned h procs (pid p) ->
       name p' = Some (str "init") /\ execve p' = Some (str "init")) /\
    (named p = true -> name p' = name p /\ execve p' = execve p).
Proof.
  intros Hk Hl.
  exists (relabel (spawned_set h procs) (with_children procs p)).
  split; [by eapply tree_record|].
  unfold relabel. cbn [with_children set_children named pid].
  split; [|split].
  - intros Hn Hs%spawned_set_spec. rewrite Hn. cbn [negb].
    by rewrite decide_True.
  - intros Hn Hs. rewrite Hn. cbn [negb].
    rewrite decide_False; [done|]. by rewrite spawned_set_spec.
  - intros Hn. by rewrite Hn.
Qed.

(** ** [processes] *)

Lemma processes_step_ok fs (h : heap) p f r :
  StraceFile_init fs f = Ok r ->
  processes_step fs (h, p) f = Ok (h ++ [r], <[pid r := length h]> p).
Proof. unfold processes_step. by intros ->. Qed.

Lemma keyed_by_pid_step (h : heap) p r :
  keyed_by_pid h p -> keyed_by_pid (h ++ [r]) (<[pid r := length h]> p).
Proof.
  intros Hk k l [[<- <-]|[Hne H]]%lookup_insert_Some.
  - exists r. split; [|done]. by apply list_lookup_middle.
  - destruct (Hk _ _ H) as (q & Hq & Hpid). exists q.
    split; [|done]. by apply lookup_app_l_Some.
Qed.

(** The loop of [processes], from any heap and dict: the new records are
    appended to the heap, new entries point at them, and a pid no new
    record has keeps its entry. *)
Lemma processes_from fs names : forall (h0 : heap) (p0 : gmap Z loc),
  Forall (constructible fs) names ->
  exists rs p',
    for_each (processes_step fs) names (h0, p0) = Ok (h0 ++ rs, p') /\
    Forall2 (fun f r => StraceFile_init fs f = Ok r) names rs /\
    (forall k l, p' !! k = Some l ->
       p0 !! k = Some l \/ (length h0 <= l < length h0 + length rs)%nat) /\
    (forall k, Forall (fun r => pid r <> k) rs -> p' !! k = p0 !! k) /\
    (keyed_by_pid h0 p0 -> keyed_by_pid (h0 ++ rs) p').
Proof.
  induction names as [|f names IH]; intros h0 p0 Hall.
  - exists [], p0. rewrite app_nil_r. simpl. repeat split; auto.
  - inversion Hall as [|? ? [r Hr] Hrest]; subst.
    destruct (IH (h0 ++ [r]) (<[pid r := length h0]> p0) Hrest)
      as (rs & p' & E & F & Hrange & Hsame & Hkey).
    exists (r :: rs), p'. simpl.
    rewrite (processes_step_ok _ _ _ _ _ Hr). simpl.
    rewrite E, <- app_assoc. simpl. repeat split.
    + by constructor.
    + intros k l [[[<- <-]|[_ H]]%lookup_insert_Some|H]%Hrange.
      * right. lia.
      * by left.
      * right. rewrite length_app in H. simpl in H. lia.
    + intros k Hk. inversion Hk; subst.
      rewrite Hsame by done. by rewrite lookup_insert_ne.
    + intros Hk0. rewrite <- app_assoc in Hkey. apply Hkey.
      by apply keyed_by_pid_step.
Qed.

(** The dict [processes] returns is keyed by pid. *)
Lemma processes_keyed fs names h procs :
  processes fs names = Ok (h, procs) -> keyed_by_pid h procs.
Proof.
  unfold processes.
  assert (G : forall names (h0 : heap) (p0 : gmap Z loc),
             keyed_by_pid h0 p0 ->
             for_each (processes_step fs) names (h0, p0) = Ok (h, procs) ->
             keyed_by_pid h procs).
  { clear names. induction names as [|f names IH]; simpl; intros h0 p0 Hk E.
    - by inversion E; subst.
    - destruct (StraceFile_init fs f) as [r|e] eqn:Hr.
      + rewrite (processes_step_ok _ _ _ _ _ Hr) in E. simpl in E.
        eapply IH; [|exact E]. by apply keyed_by_pid_step.
      + unfold processes_step in E. rewrite Hr in E. done. }
  apply G. intros k l H. by rewrite lookup_empty in H.
Qed.

Lemma Forall2_Forall_r {A B} (P : A -> B -> Prop) (Q : B -> Prop) xs ys :
  Forall2 P xs ys -> (forall x y, x ∈ xs -> P x y -> Q y) -> Forall Q ys.
Proof.
  induction 1 as [|x y xs ys Hxy _ IH]; intros H; constructor.
  - eapply H; [left|done].
  - apply IH. intros x' y' Hin. apply H. by right.
Qed.

(** C10. When two files of the list give the same pid, and no file after
    the second gives it, the dict [processes] returns holds the record of
    the second under that pid. The record of the first is still an object
    of the heap, but no key of the dict leads to it; nothing is raised. *)
Theorem later_file_replaces_earlier
    (fs : filesystem) (a : list text) (f1 : text) (b : list text) (f2 : text)
    (c : list text) (r1 r2 : StraceFile) :
  Forall (constructible fs) (a ++ f1 :: b ++ f2 :: c) ->
  StraceFile_init fs f1 = Ok r1 ->
  StraceFile_init fs f2 = Ok r2 ->
  pid r1 = pid r2 ->
  (forall f r, f ∈ c -> StraceFile_init fs f = Ok r -> pid r <> pid r2) ->
  exists h procs,
    processes fs (a ++ f1 :: b ++ f2 :: c) = Ok (h, procs) /\
    procs !! pid r2 = Some (length a + 1 + length b)%nat /\
    h !! (length a + 1 + length b)%nat = Some r2 /\
    h !! length a = Some r1 /\
    forall k, procs !! k <> Some (length a).
Proof.
  intros Hall H1 H2 Hpid Hlast.
  apply Forall_app in Hall as [Ha Hall].
  apply Forall_cons in Hall as [_ Hall].
  apply Forall_app in Hall as [Hb Hall].
  apply Forall_cons in Hall as [_ Hc].
  destruct (processes_from fs a [] ∅ Ha) as (ra & pa & Ea & Fa & Ra & _ & _).
  destruct (processes_from fs b (ra ++ [r1]) (<[pid r1 := length ra]> pa) Hb)
    as (rb & pb & Eb & Fb & Rb & _ & _).
  destruct (processes_from fs c (((ra ++ [r1]) ++ rb) ++ [r2])
              (<[pid r2 := length ((ra ++ [r1]) ++ rb)]> pb) Hc)
    as (rc & pc & Ec & Fc & Rc & Sc & _).
  apply Forall2_length in Fa as La. apply Forall2_length in Fb as Lb.
  exists ((((ra ++ [r1]) ++ rb) ++ [r2]) ++ rc), pc.
  assert (Len : length ((ra ++ [r1]) ++ rb) = (length a + 1 + length b)%nat).
  { rewrite !length_app. simpl. lia. }
  split; [|split; [|split; [|split]]].
  - unfold processes. rewrite for_each_app, Ea. simpl.
    rewrite (processes_step_ok _ _ _ _ _ H1). simpl.
    rewrite for_each_app, Eb. simpl.
    rewrite (processes_step_ok _ _ _ _ _ H2). simpl. exact Ec.
  - rewrite Sc.
    + rewrite lookup_insert_eq. by rewrite Len.
    + eapply Forall2_Forall_r; [exact Fc|]. intros f r Hin Hr.
      by eapply Hlast.
  - rewrite <- Len. apply lookup_app_l_Some. by apply list_lookup_middle.
  - rewrite La. do 3 apply lookup_app_l_Some. by apply list_lookup_middle.
  - intros k Hk. rewrite La in Hk.
    apply Rc in Hk as [Hk|Hk]; [|rewrite !length_app in Hk; simpl in Hk; lia].
    apply lookup_insert_Some in Hk as [[_ Hk]|[Hne Hk]];
      [rewrite !length_app in Hk; simpl in Hk; lia|].
    apply Rb in Hk as [Hk|Hk]; [|rewrite !length_app in Hk; simpl in Hk; lia].
    apply lookup_insert_Some in Hk as [[Hk _]|[_ Hk]]; [congruence|].
    apply Ra in Hk as [Hk|Hk]; [by rewrite lookup_empty in Hk|].
    simpl in Hk. lia.
Qed.

(** ** The example of a shell and its child *)

Lemma scan_unrecognised lines : forall self,
  Forall unrecognised lines -> for_each scan_line lines self = Ok self.
Proof.
  induction lines as [|l lines IH]; intros self H; simpl; [done|].
  inversion H as [|? ? [H1 H2] Hrest]; subst.
  rewrite scan_line_cases, H1, H2. simpl. by apply IH.
Qed.

Lemma no_newline_dot s : no_newline s -> all_in CDot s.
Proof.
  unfold no_newline, all_in. induction s as [|c s IH]; intros H; [done|].
  cbn [forallb] in *. apply andb_true_iff in H as [Hc Hs].
  apply andb_true_iff in Hc as [Hc _]. rewrite (IH Hs), andb_true_r.
  exact Hc.
Qed.




Lemma example_processes :
  processes (example_fs exec_sh clone_101 exit_101) example_names
    = Ok (example_heap, example_procs).
Proof. vm_compute. reflexivity. Qed.


Lemma roots_are_the_unspawned_witness :
  (tree example_heap example_procs).2 !! 100 = Some 0%nat <->
  example_procs !! 100 = Some 0%nat /\
  ~ all_spawned example_heap example_procs 100.
Proof.
  apply (roots_are_the_unspawned example_heap example_procs).
  apply (processes_keyed (example_fs exec_sh clone_101 exit_101)
           example_names).
  vm_compute. reflexivity.
Defined.

Lemma children_are_the_known_spawned_witness :
  exists p' ch,
    (tree example_heap example_procs).1 !! 0%nat = Some p' /\
    children p' = Some ch /\
    (forall l', l' ∈ ch <->
       exists c, c ∈ ({[ 101 ]} : gset Z) /\ example_procs !! c = Some l') /\
    clones p' = {[ 101 ]} /\
    length (tree example_heap example_procs).1 = 2%nat.
Proof.
  apply (children_are_the_known_spawned example_heap example_procs 100 0%nat
           (add_clone (set_exec (new_record (str "trace.100") 100)
              (str "/bin/sh") (str "sh") sh_args) 101)).
  - vm_compute. reflexivity.
  - vm_compute. reflexivity.
Defined.

Lemma unnamed_records_are_labelled_witness :
  exists p',
    (tree example_heap example_procs).1 !! 1%nat = Some p' /\
    (false = false -> all_spawned example_heap example_procs 101 ->
       name p' = Some (str "clone") /\ execve p' = Some (str "clone")) /\
    (false = false -> ~ all_spawned example_heap example_procs 101 ->
       name p' = Some (str "init") /\ execve p' = Some (str "init")) /\
    (false = true -> name p' = None /\ execve p' = None).
Proof.
  apply (unnamed_records_are_labelled example_heap example_procs 101 1%nat
           (new_record (str "trace.101") 101)).
  - vm_compute. reflexivity.
  - vm_compute. reflexivity.
Defined.

Lemma later_file_replaces_earlier_witness :
  exists h procs,
    processes same_pid_fs ([] ++ str "a.5" :: [] ++ str "b.5" :: [])
      = Ok (h, procs) /\
    procs !! 5 = Some 1%nat /\
    h !! 1%nat = Some (new_record (str "b.5") 5) /\
    h !! 0%nat = Some (add_clone (new_record (str "a.5") 5) 9) /\
    forall k, procs !! k <> Some 0%nat.
Proof.
  apply (later_file_replaces_earlier same_pid_fs [] (str "a.5") []
           (str "b.5") [] (add_clone (new_record (str "a.5") 5) 9)
           (new_record (str "b.5") 5)).
  - repeat constructor; eexists; vm_compute; reflexivity.
  - vm_compute. reflexivity.
  - vm_compute. reflexivity.
  - reflexivity.
  - intros f r Hin. inversion Hin.
Defined.

(** * Further properties *)

(** ** The extractor *)

Lemma scan_line_identity self line r :
  scan_line self line = Ok r ->
  filename r = filename self /\ pid r = pid self /\
  children r = children self.
Proof.
  rewrite scan_line_cases.
  destruct (recognised_execve line) as [[[e n] a]|].
  - intros [= <-]. by destruct (named self).
  - destruct (recognised_clone line) as [d|]; [|by intros [= <-]].
    destruct (py_int d); [|done]. by intros [= <-].
Qed.

Lemma scan_identity lines : forall self r,
  for_each scan_line lines self = Ok r ->
  filename r = filename self /\ pid r = pid self /\
  children r = children self.
Proof.
  induction lines as [|l lines IH]; simpl; intros self r H.
  - by inversion H.
  - destruct (scan_line self l) as [self'|] eqn:E; [|done]. simpl in H.
    destruct (scan_line_identity _ _ _ E) as (H1 & H2 & H3).
    destruct (IH _ _ H) as (I1 & I2 & I3).
    repeat split; congruence.
Qed.

(** X1. A record is made of a file exactly when its name gives a pid, the
    file can be opened and read as text, and [int] reads the pid of each
    of its creation lines: no other line of a file makes the extractor
    raise. The record keeps the name and the pid, and has no [children]
    yet. *)
Theorem record_made_iff_pids_read (fs : filesystem) (fname : text) :
  (constructible fs fname <->
   (exists p, filename_pid fname = Ok p) /\
   (exists content, fs fname = Some content /\
                    Forall pid_converts (file_lines content))) /\
  (forall r, StraceFile_init fs fname = Ok r ->
     filename r = fname /\ filename_pid fname = Ok (pid r) /\
     children r = None).
Proof.
  unfold constructible, StraceFile_init. split; [split|].
  - intros [r H]. destruct (filename_pid fname) as [p|]; [|done].
    simpl in H. destruct (fs fname) as [content|]; [|done]. simpl in H.
    split; [by eexists|]. exists content. split; [done|].
    apply (scan_returns _ (new_record fname p)). by exists r.
  - intros [[p ->] (content & -> & Hall)]. simpl. by apply scan_total.
  - intros r H. destruct (filename_pid fname) as [p|]; [|done].
    simpl in H. destruct (fs fname); [|done]. simpl in H.
    apply scan_identity in H as (-> & -> & ->). done.
Qed.

(** X2. No text is matched by both patterns, so the order in which
    [StraceFile.__init__] tries them decides nothing. *)
Theorem patterns_are_disjoint (s : text) :
  fullmatch RE_EXECVE s = None \/ fullmatch RE_CLONE s = None.
Proof.
  destruct (fullmatch RE_CLONE s) as [m|] eqn:M; [|by right]. left.
  destruct (fullmatch RE_EXECVE s) as [m'|] eqn:M'; [|done].
  apply clone_shape in M
    as (pre & call & a & w & d' & E & [[_ Hp] Hc _ _ _] & _).
  apply execve_shape in M'
    as (pre' & e & n & a' & v & E' & [[_ Hp'] _ _ _ _] & _).
  rewrite E in E'. unfold clone_text, execve_text in E'. simpl in E'.
  apply (split_first (cmem CNotSpace)) in E' as [_ E']; [|done..].
  destruct Hc as [-> | ->]; discriminate E'.
Qed.

Lemma int_digits_value d : forall acc b,
  all_in (CRange "0" "9") d -> (d <> [] \/ b = true) ->
  int_digits d acc b = Some (foldl (fun a c => 10 * a + digit_val c) acc d).
Proof.
  induction d as [|c d IH]; intros acc b H Hne; simpl.
  - destruct Hne as [?| ->]; done.
  - apply all_in_cons in H as [Hc Hd].
    rewrite range_digit in Hc. rewrite Hc. apply IH; auto.
Qed.

(** [int] reads a run of decimal digits no longer than the limit as the
    number it writes, and rejects a longer one. *)
Lemma py_int_decimal d :
  d <> [] -> all_in (CRange "0" "9") d ->
  py_int d = if Z.of_nat (length d) <=? max_str_digits
             then Some (decimal_value d) else None.
Proof.
  intros Hne H. rewrite py_int_run by done. unfold int_literal.
  rewrite (int_digits_value d 0 false H (or_introl Hne)).
  cbn [mbind option_bind]. by rewrite count_digits_all.
Qed.

Lemma decimal_value_nonneg d :
  all_in (CRange "0" "9") d -> 0 <= decimal_value d.
Proof.
  unfold decimal_value.
  assert (G : forall acc, 0 <= acc -> all_in (CRange "0" "9") d ->
              0 <= foldl (fun a c => 10 * a + digit_val c) acc d).
  { induction d as [|c d IH]; intros acc Hacc H; simpl; [done|].
    apply all_in_cons in H as [Hc Hd]. apply IH; [|done].
    rewrite range_digit in Hc. pose proof (digit_val_nonneg c Hc). lia. }
  by apply G.
Qed.

(** Every line of the creation shape is in the language of [RE_CLONE]. *)
Lemma clone_text_matches pre call a w d :
  clone_parts pre call a w d ->
  matches RE_CLONE (clone_text pre call a w d) ∅
    (<["pid" := d]> (<["1" := call]> ∅)).
Proof.
  intros [[? ?] Hc ? ? [? ?]].
  unfold RE_CLONE, clone_text. cbv [seqs].
  apply m_seq with (g1 := ∅); [by apply matches_plus_intro|].
  apply m_seq with (g1 := ∅); [apply matches_lit_intro|].
  eapply m_seq.
  { apply m_group. destruct Hc as [-> | ->];
      [apply m_alt_l | apply m_alt_r]; apply matches_lit_intro. }
  eapply m_seq; [apply matches_lit_intro|].
  eapply m_seq; [by apply m_star|].
  eapply m_seq; [apply matches_lit_intro|].
  eapply m_seq; [by apply m_star|].
  eapply m_seq; [apply matches_lit_intro|].
  apply m_group. by apply matches_plus_intro.
Qed.

Lemma digits_no_sep d :
  all_in (CRange "0" "9") d -> contains (str " = ") d = false.
Proof.
  induction d as [|c d IH]; intros H; [done|].
  apply all_in_cons in H as [Hc Hd]. cbn [contains]. rewrite (IH Hd).
  rewrite orb_false_r. rewrite range_digit in Hc.
  destruct c as [[] [] [] [] [] [] [] []]; done.
Qed.

(** What [RE_CLONE] captures as the pid of a line of the creation shape. *)
Lemma clone_recognised line pre call a w d :
  strip line = clone_text pre call a w d ->
  clone_parts pre call a w d ->
  recognised_clone line = Some d.
Proof.
  intros Hs Hparts. unfold recognised_clone. rewrite Hs.
  destruct (fullmatch_complete _ _ _ _ (clone_text_matches _ _ _ _ _ Hparts))
    as [m M].
  rewrite M. simpl.
  apply clone_shape in M as (pre' & call' & a' & w' & d' & E & P & ->).
  simplify_map_eq. f_equal.
  destruct Hparts as [_ _ _ _ [_ Hd]]. destruct P as [_ _ _ _ [Hne' Hd']].
  destruct (clone_text_tail pre call a w d) as [y Ey].
  destruct (clone_text_tail pre' call' a' w' d') as [y' Ey'].
  rewrite Ey, Ey' in E. symmetry in E.
  apply tail_unique in E as [E|E];
    [done| |by apply digits_no_sep|by apply digits_no_space].
  rewrite E in Hd'. apply all_in_cons in Hd' as [Hd' _]. done.
Qed.

(** X3. Reading a line of the creation shape, [pre call(a)w = d] with
    [call] one of [clone] and [vfork] and [d] a run of digits: when [d]
    has no more digits than [int] reads, the number [d] writes is added
    to [clones] and no other field changes; when it has more, the
    constructor raises [ValueError]. *)
Theorem creation_line_adds_the_pid
    (self : StraceFile) (line pre call a w d : text) :
  strip line = clone_text pre call a w d ->
  clone_parts pre call a w d ->
  scan_line self line
    = if Z.of_nat (length d) <=? max_str_digits
      then Ok (add_clone self (decimal_value d))
      else Raise ValueError.
Proof.
  intros Hs Hparts. rewrite scan_line_cases.
  pose proof (clone_recognised _ _ _ _ _ _ Hs Hparts) as Hc.
  rewrite (recognised_clone_not_execve _ _ Hc), Hc.
  destruct Hparts as [_ _ _ _ [Hne Hd]].
  rewrite py_int_decimal by done.
  by destruct (Z.of_nat (length d) <=? max_str_digits).
Qed.

Lemma creation_line_adds_the_pid_witness :
  scan_line (new_record (str "trace.100") 100) (clone_101 ++ [LF])
    = Ok (add_clone (new_record (str "trace.100") 100) 101).
Proof.
  apply (creation_line_adds_the_pid _ (clone_101 ++ [LF]) (str "1")
           (str "clone")
           (str "child_stack=NULL, flags=CLONE_CHILD_CLEARTID|SIGCHLD") []
           (str "101")).
  - vm_compute; reflexivity.
  - split; try (split; [discriminate|]); try (vm_compute; reflexivity).
    by left.
Defined.

Lemma recognised_execve_not_clone line x :
  recognised_execve line = Some x -> recognised_clone line = None.
Proof.
  intros H. destruct (recognised_clone line) as [d|] eqn:E; [|done].
  by rewrite (recognised_clone_not_execve _ _ E) in H.
Qed.

Lemma scan_line_clones self line r :
  scan_line self line = Ok r ->
  forall x, x ∈ clones r <-> x ∈ clones self \/ spawned_by line = Some x.
Proof.
  rewrite scan_line_cases. unfold spawned_by.
  destruct (recognised_execve line) as [[[e n] a]|] eqn:He.
  - rewrite (recognised_execve_not_clone _ _ He). simpl.
    intros [= <-] x.
    destruct (named self); simpl; (split; [by left | by intros [?|?]]).
  - destruct (recognised_clone line) as [d|]; simpl.
    + destruct (py_int d) as [p|]; [|done]. intros [= <-] x. simpl.
      rewrite elem_of_union, elem_of_singleton.
      split; (intros [?|?]; [by left | right; congruence]).
    + intros [= <-] x. split; [by left | by intros [?|?]].
Qed.

Lemma scan_clones lines : forall self r,
  for_each scan_line lines self = Ok r ->
  forall x, x ∈ clones r <->
    x ∈ clones self \/ exists l, l ∈ lines /\ spawned_by l = Some x.
Proof.
  induction lines as [|l lines IH]; simpl; intros self r H x.
  - inversion H; subst. split; [by left|].
    intros [?|(l & Hl & _)]; [done|]. by apply elem_of_nil in Hl.
  - destruct (scan_line self l) as [self'|] eqn:E; [|done]. simpl in H.
    rewrite (IH _ _ H x), (scan_line_clones _ _ _ E x). split.
    + intros [[?|?]|(l' & Hl' & ?)]; [by left| |].
      * right. exists l. split; [left|done].
      * right. exists l'. split; [by right|done].
    + intros [?|(l' & [->|Hl']%elem_of_cons & ?)].
      * by left; left.
      * by left; right.
      * right. by exists l'.
Qed.

(** X4. The [clones] set of a record holds exactly the pids of the lines of
    its file that [RE_CLONE] recognises. *)
Theorem clones_are_the_recognised_pids
    (fs : filesystem) (fname content : text) (r : StraceFile) :
  fs fname = Some content ->
  StraceFile_init fs fname = Ok r ->
  forall x, x ∈ clones r <->
    exists l, l ∈ file_lines content /\ spawned_by l = Some x.
Proof.
  unfold StraceFile_init. intros -> H x.
  destruct (filename_pid fname) as [p|]; [|done]. simpl in H.
  rewrite (scan_clones _ _ _ H x). simpl.
  split; [intros [H0|?]; [by apply elem_of_empty in H0 | done] | by right].
Qed.

Lemma clones_are_the_recognised_pids_witness :
  9 ∈ clones (add_clone (new_record (str "a.5") 5) 9) <->
    exists l, l ∈ file_lines (str "1 clone(flags=SIGCHLD) = 9" ++ [LF]) /\
              spawned_by l = Some 9.
Proof.
  refine (clones_are_the_recognised_pids same_pid_fs (str "a.5") _ _ _ _ 9).
  - vm_compute; reflexivity.
  - vm_compute; reflexivity.
Defined.

Lemma spawned_by_nonneg line x : spawned_by line = Some x -> 0 <= x.
Proof.
  unfold spawned_by, recognised_clone.
  destruct (fullmatch RE_CLONE (strip line)) as [m|] eqn:M; [|done].
  simpl. apply clone_shape in M as (pre & call & a & w & d & _ & P & ->).
  simplify_map_eq. destruct P as [_ _ _ _ [Hne Hd]].
  rewrite py_int_decimal by done.
  destruct (Z.of_nat (length d) <=? max_str_digits); [|done].
  intros [= <-]. by apply decimal_value_nonneg.
Qed.

(** X5. No record ever holds a negative pid in [clones]. *)
Theorem spawned_pids_are_not_negative
    (fs : filesystem) (fname : text) (r : StraceFile) (x : Z) :
  StraceFile_init fs fname = Ok r -> x ∈ clones r -> 0 <= x.
Proof.
  unfold StraceFile_init. intros H Hx.
  destruct (filename_pid fname) as [p|]; [|done]. simpl in H.
  destruct (fs fname) as [content|]; [|done]. simpl in H.
  apply (scan_clones _ _ _ H x) in Hx as [Hx|(l & _ & Hx)].
  - by apply elem_of_empty in Hx.
  - by eapply spawned_by_nonneg.
Qed.

Lemma spawned_pids_are_not_negative_witness : 0 <= 9.
Proof.
  apply (spawned_pids_are_not_negative same_pid_fs (str "a.5")
           (add_clone (new_record (str "a.5") 5) 9) 9).
  - vm_compute; reflexivity.
  - vm_compute; reflexivity.
Defined.

Lemma scan_line_consistent self line r :
  image_consistent self -> scan_line self line = Ok r -> image_consistent r.
Proof.
  intros Hc. rewrite scan_line_cases.
  destruct (recognised_execve line) as [[[e n] a]|].
  - intros [= <-]. destruct (named self) eqn:E; [done|].
    unfold image_consistent. simpl. eauto.
  - destruct (recognised_clone line) as [d|]; [|by intros [= <-]].
    destruct (py_int d); [|done]. by intros [= <-].
Qed.

Lemma scan_consistent lines : forall self r,
  image_consistent self -> for_each scan_line lines self = Ok r ->
  image_consistent r.
Proof.
  induction lines as [|l lines IH]; simpl; intros self r Hc H.
  - by inversion H; subst.
  - destruct (scan_line self l) as [self'|] eqn:E; [|done]. simpl in H.
    eapply IH; [|exact H]. by eapply scan_line_consistent.
Qed.

Lemma omap_nil {A B} (f : A -> option B) (xs : list A) :
  omap f xs = [] -> Forall (fun x => f x = None) xs.
Proof.
  induction xs as [|x xs IH]; simpl; [constructor|].
  destruct (f x) eqn:E; [done|]. intros H. constructor; auto.
Qed.

(** X6. In a finished record the path, the display name and the argument
    text are present together, exactly when [named] is set, and [named]
    is set exactly when the file shows a recognised [execve] line. *)
Theorem image_fields_go_together
    (fs : filesystem) (fname content : text) (r : StraceFile) :
  fs fname = Some content ->
  StraceFile_init fs fname = Ok r ->
  image_consistent r /\ (named r = true <-> execs_of content <> []).
Proof.
  intros Hc H. pose proof H as H0. unfold StraceFile_init in H.
  rewrite Hc in H.
  destruct (filename_pid fname) as [p|] eqn:Hp; [|done]. simpl in H.
  split; [by eapply scan_consistent; [|exact H]|].
  unfold execs_of. destruct (omap recognised_execve (file_lines content))
    as [|[[e n] a] rest] eqn:E.
  - apply omap_nil in E.
    destruct (scan_others _ (new_record fname p) r E H) as (Hn & _).
    rewrite Hn. simpl. split; done.
  - assert (Hh : head (execs_of content) = Some (e, n, a))
      by (unfold execs_of; by rewrite E).
    apply head_omap in Hh as (pre & l & post & El & Hpre & Hl).
    rewrite El in H.
    destruct (scan_first_execve pre l post (new_record fname p) e n a r)
      as (Hn & _); [done..|].
    split; done.
Qed.

Lemma image_fields_go_together_witness :
  image_consistent
    (set_exec (new_record (str "trace.7") 7) (str "/bin/a") (str "a")
       (str ", " ++ [dq] ++ str "x" ++ [dq])) /\
  (named
     (set_exec (new_record (str "trace.7") 7) (str "/bin/a") (str "a")
        (str ", " ++ [dq] ++ str "x" ++ [dq])) = true
   <-> execs_of two_execs <> []).
Proof.
  apply (image_fields_go_together fs_two_execs (str "trace.7")).
  - vm_compute; reflexivity.
  - vm_compute; reflexivity.
Defined.

(** ** [processes]: the heap and the dict *)

Lemma processes_step_raise fs (st : heap * gmap Z loc) f e :
  StraceFile_init fs f = Raise e -> processes_step fs st f = Raise e.
Proof. unfold processes_step. by intros ->. Qed.

Lemma processes_loop_records fs names : forall (h0 : heap) p0 h procs,
  for_each (processes_step fs) names (h0, p0) = Ok (h, procs) ->
  exists rs, h = h0 ++ rs /\
    Forall2 (fun f r => StraceFile_init fs f = Ok r) names rs.
Proof.
  induction names as [|f names IH]; simpl; intros h0 p0 h procs H.
  - inversion H; subst. exists []. by rewrite app_nil_r.
  - destruct (StraceFile_init fs f) as [r|e] eqn:Hr.
    + rewrite (processes_step_ok _ _ _ _ _ Hr) in H. simpl in H.
      apply IH in H as (rs & -> & F). exists (r :: rs).
      rewrite <- app_assoc. split; [done|]. by constructor.
    + by rewrite (processes_step_raise _ _ _ _ Hr) in H.
Qed.

(** X7. [processes] returns exactly when a record can be made of every
    file; the heap then holds one record per file name, in the order of
    the names. *)
Theorem processes_returns_iff_all_made (fs : filesystem) (names : list text) :
  ((exists h procs, processes fs names = Ok (h, procs)) <->
   Forall (constructible fs) names) /\
  (forall h procs, processes fs names = Ok (h, procs) ->
     Forall2 (fun f r => StraceFile_init fs f = Ok r) names h).
Proof.
  split; [split|].
  - intros (h & procs & H).
    apply processes_loop_records in H as (rs & _ & F).
    induction F; constructor; [by eexists|done].
  - intros Hall.
    destruct (processes_from fs names [] ∅ Hall) as (rs & p' & E & _).
    by exists ([] ++ rs), p'.
  - intros h procs H.
    by apply processes_loop_records in H as (rs & -> & F).
Qed.

(** X8. [processes] raises what the first file no record can be made of
    raises; the files after it are not read. *)
Theorem processes_raises_first_failure
    (fs : filesystem) (a : list text) (f : text) (b : list text) (e : exn) :
  Forall (constructible fs) a ->
  StraceFile_init fs f = Raise e ->
  processes fs (a ++ f :: b) = Raise e.
Proof.
  intros Ha Hf. unfold processes.
  destruct (processes_from fs a [] ∅ Ha) as (rs & p' & E & _).
  rewrite for_each_app, E. simpl.
  by rewrite (processes_step_raise _ _ _ _ Hf).
Qed.

Lemma processes_raises_first_failure_witness :
  processes same_pid_fs ([str "a.5"] ++ str "trace.log" :: [str "b.5"])
    = Raise ValueError.
Proof.
  apply (processes_raises_first_failure same_pid_fs [str "a.5"]
           (str "trace.log") [str "b.5"] ValueError).
  - repeat constructor. eexists. vm_compute. reflexivity.
  - vm_compute. reflexivity.
Defined.

Lemma last_with_pid_step (h : heap) (p : gmap Z loc) r :
  (forall k l, p !! k = Some l <-> last_with_pid h k l) ->
  forall k l,
    <[pid r := length h]> p !! k = Some l <-> last_with_pid (h ++ [r]) k l.
Proof.
  intros Hinv k l. rewrite lookup_insert_Some. split.
  - intros [[<- <-]|[Hne Hl]].
    + exists r. split; [by apply list_lookup_middle|]. split; [done|].
      intros l' r' Hlt Hl'. apply lookup_lt_Some in Hl'.
      rewrite length_app in Hl'. simpl in Hl'. lia.
    + apply Hinv in Hl as (r0 & Hr0 & Hpid & Hlast).
      exists r0. split; [by apply lookup_app_l_Some|]. split; [done|].
      intros l' r' Hlt Hl'.
      apply lookup_app_Some in Hl' as [Hl'|[Hge Hl']]; [by eapply Hlast|].
      destruct (l' - length h)%nat; simpl in Hl'; [|done].
      by injection Hl' as <-.
  - intros (r0 & Hr0 & Hpid & Hlast).
    apply lookup_app_Some in Hr0 as [Hr0|[Hge Hr0]].
    + right. assert (Hne : pid r <> k).
      { apply (Hlast (length h) r); [by eapply lookup_lt_Some|].
        by apply list_lookup_middle. }
      split; [done|]. apply Hinv. exists r0. split; [done|]. split; [done|].
      intros l' r' Hlt Hl'. eapply Hlast; [done|].
      by apply lookup_app_l_Some.
    + destruct (l - length h)%nat eqn:E; simpl in Hr0; [|done].
      injection Hr0 as <-. left. split; [done|]. lia.
Qed.

Lemma processes_loop_last fs names : forall (h0 : heap) p0 h procs,
  (forall k l, p0 !! k = Some l <-> last_with_pid h0 k l) ->
  for_each (processes_step fs) names (h0, p0) = Ok (h, procs) ->
  forall k l, procs !! k = Some l <-> last_with_pid h k l.
Proof.
  induction names as [|f names IH]; simpl; intros h0 p0 h procs Hinv H.
  - by inversion H; subst.
  - destruct (StraceFile_init fs f) as [r|e] eqn:Hr.
    + rewrite (processes_step_ok _ _ _ _ _ Hr) in H. simpl in H.
      eapply IH; [|exact H]. by apply last_with_pid_step.
    + by rewrite (processes_step_raise _ _ _ _ Hr) in H.
Qed.

Lemma processes_loop_keys fs names : forall (h0 : heap) p0 h procs,
  (forall l r, h0 !! l = Some r -> is_Some (p0 !! pid r)) ->
  for_each (processes_step fs) names (h0, p0) = Ok (h, procs) ->
  forall l r, h !! l = Some r -> is_Some (procs !! pid r).
Proof.
  induction names as [|f names IH]; simpl; intros h0 p0 h procs Hinv H.
  - by inversion H; subst.
  - destruct (StraceFile_init fs f) as [r|e] eqn:Hr.
    + rewrite (processes_step_ok _ _ _ _ _ Hr) in H. simpl in H.
      eapply IH; [|exact H]. intros l r0 Hl.
      destruct (decide (pid r = pid r0)) as [->|Hne].
      * rewrite lookup_insert_eq. by eexists.
      * rewrite lookup_insert_ne by done.
        apply lookup_app_Some in Hl as [Hl|[_ Hl]]; [by eapply Hinv|].
        destruct (l - length h0)%nat; simpl in Hl; [|done].
        by injection Hl as <-.
    + by rewrite (processes_step_raise _ _ _ _ Hr) in H.
Qed.

(** X9. In the dict [processes] returns, a pid leads to the record of the
    last file that gave this pid, and every record's pid is a key. *)
Theorem procs_holds_last_record_of_each_pid
    (fs : filesystem) (names : list text) (h : heap) (procs : gmap Z loc) :
  processes fs names = Ok (h, procs) ->
  (forall k l, procs !! k = Some l <-> last_with_pid h k l) /\
  (forall l r, h !! l = Some r -> is_Some (procs !! pid r)).
Proof.
  intros H. split.
  - eapply processes_loop_last; [|exact H]. intros k l. split.
    + intros Hk. by rewrite lookup_empty in Hk.
    + intros (r & Hr & _). by rewrite lookup_nil in Hr.
  - eapply processes_loop_keys; [|exact H].
    intros l r Hr. by rewrite lookup_nil in Hr.
Qed.

Lemma procs_holds_last_record_of_each_pid_witness :
  (forall k l, example_procs !! k = Some l
               <-> last_with_pid example_heap k l) /\
  (forall l r, example_heap !! l = Some r
               -> is_Some (example_procs !! pid r)).
Proof.
  apply (procs_holds_last_record_of_each_pid
           (example_fs exec_sh clone_101 exit_101) example_names).
  vm_compute. reflexivity.
Defined.

(** ** [tree]: what it changes, and what it leaves *)

Lemma clones_at_alter_all f ls : forall (h : heap) l,
  (forall p, clones (f p) = clones p) ->
  clones_at (alter_all f ls h) l = clones_at h l.
Proof.
  induction ls as [|l0 ls IH]; intros h l Hf; [done|].
  change (alter_all f (l0 :: ls) h) with (alter_all f ls (alter f l0 h)).
  rewrite IH by done. by apply clones_at_alter.
Qed.

Lemma relabel_clones cl p : clones (relabel cl p) = clones p.
Proof. unfold relabel. by repeat case_match. Qed.

Lemma relabel_with_children cl procs p :
  with_children procs (relabel cl p) = relabel cl (with_children procs p).
Proof.
  unfold relabel, with_children. cbn [set_children named pid].
  destruct (named p); simpl; [done|]. by destruct (decide (pid p ∈ cl)).
Qed.

(** The heap [tree] leaves, object by object. *)
Lemma tree_heap_lookup h procs l :
  (tree h procs).1 !! l =
    if decide (l ∈ values procs)
    then relabel (spawned_set h procs) <$> (with_children procs <$> h !! l)
    else h !! l.
Proof.
  rewrite tree_eq. cbn [fst].
  rewrite alter_all_lookup by apply relabel_idem.
  rewrite alter_all_lookup by apply with_children_idem.
  by destruct (decide (l ∈ values procs)).
Qed.

(** X10. [tree] writes [children] and, for a record with no captured
    image, the label in [execve] and [name]; it keeps every other field of
    every object, keeps [execve] and [name] of a record with a captured
    image, leaves alone the objects [procs] does not hold, and makes no
    object. *)
Theorem tree_keeps_the_parsed_fields
    (h : heap) (procs : gmap Z loc) (l : loc) :
  match h !! l with
  | None => (tree h procs).1 !! l = None
  | Some p =>
      exists p', (tree h procs).1 !! l = Some p' /\
        filename p' = filename p /\ pid p' = pid p /\
        named p' = named p /\ args p' = args p /\ clones p' = clones p /\
        (named p = true -> execve p' = execve p /\ name p' = name p) /\
        ((forall k, procs !! k <> Some l) -> p' = p)
  end.
Proof.
  rewrite tree_heap_lookup.
  destruct (h !! l) as [p|] eqn:E;
    destruct (decide (l ∈ values procs)) as [Hin|Hnin]; simpl; try done.
  - eexists. split; [done|].
    unfold relabel, with_children. cbn [set_children named].
    do 5 (split; [by repeat case_match|]). split.
    + intros Hn. rewrite Hn. by split.
    + intros Hno. apply elem_of_values in Hin as [k Hk]. by destruct (Hno k).
  - exists p. by repeat split.
Qed.

(** X11. Building the forest again changes nothing: [tree] on the heap it
    left gives the same heap and the same roots. *)
Theorem tree_twice_is_tree_once (h : heap) (procs : gmap Z loc) :
  tree (tree h procs).1 procs = tree h procs.
Proof.
  assert (Hs : spawned_set (tree h procs).1 procs = spawned_set h procs).
  { unfold spawned_set. f_equal. apply list_fmap_ext. intros _ l _.
    unfold clones_at. rewrite tree_heap_lookup.
    destruct (decide (l ∈ values procs)); [|done].
    destruct (h !! l) as [p|]; simpl; [|done]. by rewrite relabel_clones. }
  rewrite (tree_eq (tree h procs).1 procs), Hs.
  etrans; [|symmetry; apply tree_eq]. f_equal.
  - apply list_eq. intros l.
    rewrite !alter_all_lookup
      by (apply relabel_idem || apply with_children_idem).
    rewrite tree_heap_lookup.
    destruct (decide (l ∈ values procs)); [|done].
    destruct (h !! l) as [p|]; simpl; [|done].
    by rewrite relabel_with_children, with_children_idem, relabel_idem.
  - apply foldl_pointwise. intros m l. unfold inits_step, pid_at.
    rewrite tree_heap_lookup.
    destruct (decide (l ∈ values procs)); [|done].
    destruct (h !! l) as [p|]; simpl; [|done]. by rewrite relabel_pid.
Qed.

Lemma tree_roots_lookup (h : heap) (procs : gmap Z loc) :
  keyed_by_pid h procs ->
  forall k l,
    (tree h procs).2 !! k = Some l <->
    procs !! k = Some l /\ k ∉ spawned_set h procs.
Proof.
  intros Hkey k l. rewrite tree_eq. cbn [snd]. split.
  - intros [H|(Hin & Hp & Hn)]%inits_sound; [by rewrite lookup_empty in H|].
    split; [|done].
    apply elem_of_values in Hin as [k' Hk'].
    destruct (Hkey _ _ Hk') as (p & Hl & <-).
    unfold pid_at in Hp. rewrite Hl in Hp. simpl in Hp. by simplify_eq.
  - intros [Hk Hn]. destruct (Hkey _ _ Hk) as (p & Hl & Hpid).
    apply inits_complete; [done| |].
    + intros l' [k' Hk']%elem_of_values Hp.
      destruct (Hkey _ _ Hk') as (p' & Hl' & <-).
      unfold pid_at in Hp. rewrite Hl' in Hp. simpl in Hp.
      simplify_eq. congruence.
    + right. split; [apply elem_of_values; eauto|].
      unfold pid_at. rewrite Hl. simpl. by rewrite Hpid.
Qed.

Lemma child_iff_spawned (h : heap) (procs : gmap Z loc) k l :
  keyed_by_pid h procs -> procs !! k = Some l ->
  child_of_some (tree h procs).1 procs l <-> k ∈ spawned_set h procs.
Proof.
  intros Hkey Hk. rewrite spawned_set_spec. split.
  - intros (k' & l' & p' & ch & Hk' & Hl' & Hch & Hin).
    destruct (Hkey _ _ Hk') as (p0 & Hp0 & _).
    rewrite (tree_record _ _ _ _ _ Hk' Hp0) in Hl'. injection Hl' as <-.
    assert (ch = children_of procs (clones p0)) as ->.
    { unfold relabel in Hch. repeat case_match; simpl in Hch; congruence. }
    apply elem_of_set_omap in Hin as (c & Hc & Hl).
    destruct (Hkey _ _ Hl) as (q & Hq & Hqc).
    destruct (Hkey _ _ Hk) as (q' & Hq' & Hqk).
    assert (c = k) as -> by congruence.
    by exists k', l', p0.
  - intros (k' & l' & p0 & Hk' & Hp0 & Hin).
    exists k', l', (relabel (spawned_set h procs) (with_children procs p0)),
           (children_of procs (clones p0)).
    split; [done|]. split; [by eapply tree_record|].
    split; [unfold relabel; by repeat case_match|].
    apply elem_of_set_omap. by exists k.
Qed.

(** X12. In a collection keyed by pid, every record is a root or a child
    of some record after [tree], and never both. *)
Theorem every_record_is_root_or_child
    (h : heap) (procs : gmap Z loc) (k : Z) (l : loc) :
  keyed_by_pid h procs ->
  procs !! k = Some l ->
  ((tree h procs).2 !! k = Some l /\
   ~ child_of_some (tree h procs).1 procs l) \/
  ((tree h procs).2 !! k = None /\
   child_of_some (tree h procs).1 procs l).
Proof.
  intros Hkey Hk. rewrite (child_iff_spawned h procs k l Hkey Hk).
  destruct (decide (k ∈ spawned_set h procs)) as [Hin|Hnin].
  - right. split; [|done].
    destruct ((tree h procs).2 !! k) as [l'|] eqn:E; [|done].
    by apply (tree_roots_lookup h procs Hkey) in E as [_ E].
  - left. split; [|done]. by apply tree_roots_lookup.
Qed.

Lemma every_record_is_root_or_child_witness :
  ((tree example_heap example_procs).2 !! 101 = Some 1%nat /\
   ~ child_of_some (tree example_heap example_procs).1 example_procs 1%nat)
  \/
  ((tree example_heap example_procs).2 !! 101 = None /\
   child_of_some (tree example_heap example_procs).1 example_procs 1%nat).
Proof.
  apply (every_record_is_root_or_child example_heap example_procs 101 1%nat).
  - apply (processes_keyed (example_fs exec_sh clone_101 exit_101)
             example_names).
    vm_compute. reflexivity.
  - vm_compute. reflexivity.
Defined.

Lemma StraceFile_init_consistent fs f r :
  StraceFile_init fs f = Ok r -> image_consistent r.
Proof.
  unfold StraceFile_init. intros H.
  destruct (filename_pid f) as [p|]; [|done]. simpl in H.
  destruct (fs f) as [content|]; [|done]. simpl in H.
  by eapply scan_consistent; [|exact H].
Qed.

Lemma processes_consistent fs names h procs l r :
  processes fs names = Ok (h, procs) -> h !! l = Some r ->
  image_consistent r.
Proof.
  intros H Hl. apply processes_loop_records in H as (rs & -> & F).
  simpl in Hl.
  destruct (Forall2_lookup_r _ _ _ _ _ F Hl) as (f & _ & Hf).
  by eapply StraceFile_init_consistent.
Qed.

Lemma listable_after_tree
    (fs : filesystem) (names : list text) (h : heap) (procs : gmap Z loc)
    (k : Z) (l : loc) :
  processes fs names = Ok (h, procs) ->
  procs !! k = Some l ->
  exists p' ch,
    (tree h procs).1 !! l = Some p' /\
    is_Some (name p') /\ is_Some (execve_basename p') /\
    (named p' = true -> is_Some (args p')) /\
    children p' = Some ch /\
    forall c, c ∈ ch -> exists k', procs !! k' = Some c.
Proof.
  intros H Hk.
  destruct (processes_keyed _ _ _ _ H _ _ Hk) as (p & Hp & _).
  pose proof (processes_consistent _ _ _ _ _ _ H Hp) as Hc.
  exists (relabel (spawned_set h procs) (with_children procs p)),
         (children_of procs (clones p)).
  split; [by eapply tree_record|].
  unfold image_consistent in Hc. unfold execve_basename, relabel.
  cbn [with_children set_children named pid].
  destruct (named p) eqn:Hn; cbn [negb].
  - destruct Hc as (He & Hna & Ha). simpl.
    split; [done|]. split; [destruct He as [e ->]; by eexists|].
    split; [done|]. split; [done|].
    intros c (c' & _ & Hc')%elem_of_set_omap. eauto.
  - destruct (decide (pid p ∈ spawned_set h procs)); simpl;
      (split; [by eexists|]); (split; [by eexists|]);
      (split; [by rewrite Hn|]); (split; [done|]);
      intros c (c' & _ & Hc')%elem_of_set_omap; eauto.
Qed.

(** X13. After [processes] and [tree], every record of the dict has what
    the listing reads: a name and a path (so a basename of the path), a
    [children] set that holds records of the dict only, and, when [named]
    is set, the argument text. *)
Theorem every_record_can_be_listed
    (fs : filesystem) (names : list text) (h : heap) (procs : gmap Z loc)
    (k : Z) (l : loc) :
  processes fs names = Ok (h, procs) ->
  procs !! k = Some l ->
  exists p' ch,
    (tree h procs).1 !! l = Some p' /\
    is_Some (name p') /\ is_Some (execve_basename p') /\
    (named p' = true -> is_Some (args p')) /\
    children p' = Some ch /\
    forall c, c ∈ ch -> exists k', procs !! k' = Some c.
Proof. apply listable_after_tree. Qed.

Lemma every_record_can_be_listed_witness :
  exists p' ch,
    (tree example_heap example_procs).1 !! 0%nat = Some p' /\
    is_Some (name p') /\ is_Some (execve_basename p') /\
    (named p' = true -> is_Some (args p')) /\
    children p' = Some ch /\
    forall c, c ∈ ch -> exists k', example_procs !! k' = Some c.
Proof.
  apply (every_record_can_be_listed (example_fs exec_sh clone_101 exit_101)
           example_names example_heap example_procs 100 0%nat).
  - vm_compute. reflexivity.
  - vm_compute. reflexivity.
Defined.

(** ** [execve_basename] and [name_basename] *)

Lemma no_slash_existsb b :
  all_in (CNot "/") b <-> existsb (Ascii.eqb "/") b = false.
Proof.
  induction b as [|c b IH]; [done|].
  rewrite all_in_cons, IH. cbn [existsb cmem].
  rewrite orb_false_iff, negb_true_iff, (Ascii.eqb_sym c "/"). done.
Qed.

Lemma basename_plain b : all_in (CNot "/") b -> basename b = b.
Proof.
  destruct b as [|c b]; [done|]. intros [Hc Hb]%all_in_cons.
  apply no_slash_existsb in Hb. simpl in *. rewrite Hb.
  apply negb_true_iff in Hc. by rewrite Hc.
Qed.

Lemma basename_path d b :
  all_in (CNot "/") b -> basename (d ++ "/"%char :: b) = b.
Proof.
  intros Hb. induction d as [|c d IH]; simpl.
  - apply no_slash_existsb in Hb. by rewrite Hb.
  - by rewrite existsb_app, orb_true_r.
Qed.

Lemma basename_no_slash s : all_in (CNot "/") (basename s).
Proof.
  induction s as [|c s IH]; [done|]. simpl.
  destruct (existsb (Ascii.eqb "/") s) eqn:E; [done|].
  apply no_slash_existsb in E.
  destruct (Ascii.eqb c "/") eqn:Ec; [done|].
  apply all_in_cons. split; [|done]. simpl. by rewrite Ec.
Qed.

(** X14. The basename of a record's path is what follows its last slash:
    a path [d/b], with no slash in [b], gives [b]; a path with no slash
    gives itself; no basename holds a slash; no path, no basename. *)
Theorem basename_is_the_last_component
    (r : StraceFile) (d b s : text) :
  all_in (CNot "/") b ->
  (execve r = Some (d ++ "/"%char :: b) -> execve_basename r = Some b) /\
  (execve r = Some b -> execve_basename r = Some b) /\
  (execve r = Some s ->
     exists t, execve_basename r = Some t /\ all_in (CNot "/") t) /\
  (execve r = None -> execve_basename r = None).
Proof.
  intros Hb. unfold execve_basename. repeat split.
  - intros ->. simpl. by rewrite basename_path.
  - intros ->. simpl. by rewrite basename_plain.
  - intros ->. simpl. eexists. split; [done|]. apply basename_no_slash.
  - by intros ->.
Qed.

Lemma basename_is_the_last_component_witness :
  (execve sh_record = Some (str "/bin" ++ "/"%char :: str "sh")
     -> execve_basename sh_record = Some (str "sh")) /\
  (execve sh_record = Some (str "sh")
     -> execve_basename sh_record = Some (str "sh")) /\
  (execve sh_record = Some (str "/bin/sh") ->
     exists t, execve_basename sh_record = Some t /\ all_in (CNot "/") t) /\
  (execve sh_record = None -> execve_basename sh_record = None).
Proof.
  apply (basename_is_the_last_component sh_record (str "/bin") (str "sh")
           (str "/bin/sh")).
  vm_compute. reflexivity.
Defined.

(** ** Writing a pid and reading it back *)

Lemma digit_char_digit d : (d < 10)%N -> is_digit (digit_char d) = true.
Proof.
  intros H. unfold is_digit, digit_char.
  rewrite N_ascii_embedding by lia.
  apply andb_true_iff. split; apply N.leb_le; lia.
Qed.

Lemma digit_char_val d : (d < 10)%N -> digit_val (digit_char d) = Z.of_N d.
Proof.
  intros H. unfold digit_val, digit_char.
  rewrite N_ascii_embedding by lia. lia.
Qed.

Lemma decimal_value_snoc s c :
  decimal_value (s ++ [c]) = 10 * decimal_value s + digit_val c.
Proof. unfold decimal_value. by rewrite foldl_app. Qed.

(** With enough fuel, [to_digits] writes [n] in decimal digits. *)
Lemma to_digits_spec fuel : forall n,
  (n < 2 ^ N.of_nat fuel)%N ->
  to_digits fuel n <> [] /\
  all_in (CRange "0" "9") (to_digits fuel n) /\
  decimal_value (to_digits fuel n) = Z.of_N n.
Proof.
  induction fuel as [|fuel IH]; intros n Hn.
  - simpl in Hn. assert (n = 0%N) as -> by lia. by vm_compute.
  - cbn [to_digits]. destruct (N.ltb_spec n 10) as [Hlt|Hge].
    + split; [done|]. split.
      * apply all_in_cons. split; [|done].
        rewrite range_digit. by apply digit_char_digit.
      * unfold decimal_value. simpl. rewrite digit_char_val by done. lia.
    + assert (Hdiv : (n / 10 < 2 ^ N.of_nat fuel)%N).
      { rewrite Nat2N.inj_succ, N.pow_succ_r' in Hn.
        apply N.Div0.div_lt_upper_bound. lia. }
      destruct (IH _ Hdiv) as (Hne & Hall & Hval).
      assert (Hmod : (n mod 10 < 10)%N) by (apply N.mod_lt; lia).
      split; [by destruct (to_digits fuel (n / 10))|]. split.
      * apply all_in_app. split; [done|]. apply all_in_cons. split; [|done].
        rewrite range_digit. by apply digit_char_digit.
      * rewrite decimal_value_snoc, Hval, digit_char_val by done.
        pose proof (N.div_mod n 10). lia.
Qed.

Lemma pos_below_size p : (N.pos p < 2 ^ N.of_nat (Pos.size_nat p))%N.
Proof.
  induction p as [p IH|p IH|]; cbn [Pos.size_nat];
    rewrite ?Nat2N.inj_succ, ?N.pow_succ_r'; [lia|lia|done].
Qed.

Lemma pos_digits_spec p :
  to_digits (Pos.size_nat p) (Npos p) <> [] /\
  all_in (CRange "0" "9") (to_digits (Pos.size_nat p) (Npos p)) /\
  decimal_value (to_digits (Pos.size_nat p) (Npos p)) = Zpos p.
Proof. apply to_digits_spec, pos_below_size. Qed.

Lemma abs_digits_spec z :
  abs_digits z <> [] /\
  all_in (CRange "0" "9") (abs_digits z) /\
  decimal_value (abs_digits z) = Z.abs z.
Proof.
  destruct z as [|p|p]; [done| |]; simpl; apply pos_digits_spec.
Qed.

(** [int(str(n))] is [n]. *)
Lemma py_int_py_str z s : py_str z = Some s -> py_int s = Some z.
Proof.
  unfold py_str.
  destruct (Z.leb_spec (Z.of_nat (length (abs_digits z))) max_str_digits)
    as [L|L]; [|done].
  intros [= <-].
  destruct (abs_digits_spec z) as (Hne & Hall & Hval).
  assert (Hlit : int_literal (abs_digits z) = Some (Z.abs z)).
  { rewrite <- py_int_run, py_int_decimal, Hval by done.
    by destruct (Z.leb_spec (Z.of_nat (length (abs_digits z)))
                   max_str_digits); [|lia]. }
  destruct z as [|p|p].
  - by vm_compute.
  - by rewrite py_int_run.
  - unfold py_int.
    destruct (all_in_last _ _ Hne Hall) as (ds & c & E & Hc & _).
    rewrite E. rewrite strip_id;
      [|done|apply digit_not_space; by rewrite <- range_digit].
    rewrite <- E, Hlit. done.
Qed.

Lemma py_str_no_dot z s : py_str z = Some s -> all_in (CNot ".") s.
Proof.
  assert (G : forall d, all_in (CRange "0" "9") d -> all_in (CNot ".") d).
  { induction d as [|c d IH]; [done|]. intros [Hc Hd]%all_in_cons.
    apply all_in_cons. split; [|by apply IH]. rewrite range_digit in Hc.
    clear -Hc. destruct c as [[] [] [] [] [] [] [] []]; done. }
  unfold py_str.
  destruct (Z.of_nat (length (abs_digits z)) <=? max_str_digits); [|done].
  intros [= <-]. destruct (abs_digits_spec z) as (_ & Hall & _).
  destruct z as [|p|p]; [by apply G..|].
  apply all_in_cons. split; [done|]. by apply G.
Qed.

Lemma after_dot_first pre t :
  all_in (CNot ".") pre -> after_dot (pre ++ "."%char :: t) = Some t.
Proof.
  induction pre as [|c pre IH]; [done|]. intros [Hc Hp]%all_in_cons.
  simpl in *. apply negb_true_iff in Hc. rewrite Hc. by apply IH.
Qed.

Lemma before_dot_first comp t :
  all_in (CNot ".") comp ->
  before_dot comp = comp /\ before_dot (comp ++ "."%char :: t) = comp.
Proof.
  induction comp as [|c comp IH]; [done|]. intros [Hc Hp]%all_in_cons.
  simpl in *. apply negb_true_iff in Hc. rewrite Hc.
  destruct (IH Hp) as [-> ->]. done.
Qed.

(** X15. A file name [pre.N] or [pre.N.more], where [pre] holds no dot and
    [N] is a pid as [str] writes it, gives the pid back. *)
Theorem filename_gives_the_pid_back (pre rest s : text) (n : Z) :
  all_in (CNot ".") pre ->
  rest = [] \/ (exists t, rest = "."%char :: t) ->
  py_str n = Some s ->
  filename_pid (pre ++ "."%char :: s ++ rest) = Ok n.
Proof.
  intros Hpre Hrest Hs. unfold filename_pid.
  rewrite split_on_second. unfold pid_component.
  rewrite after_dot_first by done. simpl.
  pose proof (py_str_no_dot _ _ Hs) as Hdot.
  assert (E : before_dot (s ++ rest) = s).
  { destruct Hrest as [-> | [t ->]].
    - rewrite app_nil_r. by destruct (before_dot_first s [] Hdot).
    - by destruct (before_dot_first s t Hdot). }
  rewrite E. by rewrite (py_int_py_str _ _ Hs).
Qed.

Lemma filename_gives_the_pid_back_witness :
  filename_pid (str "trace" ++ "."%char :: str "4242" ++ str ".log")
    = Ok 4242.
Proof.
  apply (filename_gives_the_pid_back (str "trace") (str ".log") (str "4242")
           4242).
  - vm_compute. reflexivity.
  - right. by eexists.
  - vm_compute. reflexivity.
Defined.

(** ** A pid that was read can be written *)

Lemma digit_val_range c : is_digit c = true -> 0 <= digit_val c <= 9.
Proof.
  unfold is_digit, digit_val. intros H.
  apply andb_true_iff in H as [H1 H2].
  apply N.leb_le in H1. apply N.leb_le in H2. lia.
Qed.

Lemma count_digits_nonneg s : 0 <= count_digits s.
Proof.
  induction s as [|c s IH]; simpl; [done|]. destruct (is_digit c); lia.
Qed.

(** A literal of [k] digits writes a number below [10 ^ k]. *)
Lemma int_digits_bound s : forall acc b v,
  0 <= acc -> int_digits s acc b = Some v ->
  acc * 10 ^ count_digits s <= v < (acc + 1) * 10 ^ count_digits s.
Proof.
  induction s as [|c s IH]; intros acc b v Hacc H; cbn [int_digits] in H.
  - destruct b; [|done]. injection H as <-. simpl. lia.
  - cbn [count_digits]. pose proof (count_digits_nonneg s) as Hn.
    destruct (is_digit c) eqn:Hc.
    + pose proof (digit_val_range c Hc) as Hv.
      apply IH in H; [|lia].
      replace (1 + count_digits s) with (Z.succ (count_digits s)) by lia.
      rewrite Z.pow_succ_r by done.
      assert (0 < 10 ^ count_digits s) by (apply Z.pow_pos_nonneg; lia).
      nia.
    + destruct (Ascii.eqb c "_"); [|done]. destruct b; [|done].
      rewrite Z.add_0_l. by apply IH in H.
Qed.

Lemma int_digits_count s acc v :
  int_digits s acc false = Some v -> 1 <= count_digits s.
Proof.
  destruct s as [|c s]; [done|]. cbn [int_digits count_digits].
  pose proof (count_digits_nonneg s). destruct (is_digit c); [lia|].
  by destruct (Ascii.eqb c "_").
Qed.

(** A number below [10 ^ k] is written in [k] digits or fewer. *)
Lemma to_digits_length fuel : forall n k,
  (n < 2 ^ N.of_nat fuel)%N -> 1 <= k -> Z.of_N n < 10 ^ k ->
  Z.of_nat (length (to_digits fuel n)) <= k.
Proof.
  induction fuel as [|fuel IH]; intros n k Hn Hk Hlt; cbn [to_digits].
  - simpl. lia.
  - destruct (N.ltb_spec n 10) as [H10|H10]; [simpl; lia|].
    rewrite length_app, Nat2Z.inj_add. simpl.
    assert (Hk2 : 2 <= k).
    { destruct (decide (k = 1)) as [->|]; [|lia]. simpl in Hlt. lia. }
    assert (Hdiv : (n / 10 < 2 ^ N.of_nat fuel)%N).
    { rewrite Nat2N.inj_succ, N.pow_succ_r' in Hn.
      apply N.Div0.div_lt_upper_bound. lia. }
    assert (Hlt' : Z.of_N (n / 10) < 10 ^ (k - 1)).
    { rewrite N2Z.inj_div. apply Z.div_lt_upper_bound; [lia|].
      replace k with (Z.succ (k - 1)) in Hlt by lia.
      rewrite Z.pow_succ_r in Hlt by lia. exact Hlt. }
    specialize (IH (n / 10)%N (k - 1) Hdiv ltac:(lia) Hlt'). lia.
Qed.

Lemma abs_digits_length z k :
  1 <= k -> Z.abs z < 10 ^ k -> Z.of_nat (length (abs_digits z)) <= k.
Proof.
  intros Hk Hz. destruct z as [|p|p]; cbn [abs_digits].
  - simpl. lia.
  - apply to_digits_length; [apply pos_below_size|done|done].
  - apply to_digits_length; [apply pos_below_size|done|done].
Qed.

Lemma abs_digits_opp z : abs_digits (- z) = abs_digits z.
Proof. by destruct z. Qed.

Lemma py_str_opp z : is_Some (py_str z) -> is_Some (py_str (- z)).
Proof.
  unfold py_str. rewrite abs_digits_opp.
  destruct (Z.of_nat (length (abs_digits z)) <=? max_str_digits);
    [by eexists|by intros [? ?]].
Qed.

Lemma int_literal_printable ds v :
  int_literal ds = Some v -> is_Some (py_str v).
Proof.
  unfold int_literal. destruct (int_digits ds 0 false) as [w|] eqn:E; [|done].
  cbn [mbind option_bind].
  destruct (Z.leb_spec (count_digits ds) max_str_digits) as [L|L]; [|done].
  intros [= <-].
  pose proof (int_digits_count _ _ _ E) as Hc.
  apply int_digits_bound in E; [|done].
  assert (Hlen : Z.of_nat (length (abs_digits w)) <= count_digits ds).
  { apply abs_digits_length; [done|]. lia. }
  unfold py_str.
  destruct (Z.leb_spec (Z.of_nat (length (abs_digits w))) max_str_digits);
    [by eexists|lia].
Qed.

(** [str] writes every number [int] has read. *)
Lemma py_int_printable s z : py_int s = Some z -> is_Some (py_str z).
Proof.
  unfold py_int. destruct (strip_by is_int_space s) as [|c ds];
    [apply int_literal_printable|].
  destruct c as [[] [] [] [] [] [] [] []]; try apply int_literal_printable.
  destruct (int_literal ds) as [v|] eqn:Ev; [|done].
  intros [= <-]. by eapply py_str_opp, int_literal_printable.
Qed.

(** The pid of a record [processes] has made can be written. *)
Lemma processes_pid_printable fs names h procs l r :
  processes fs names = Ok (h, procs) -> h !! l = Some r ->
  is_Some (py_str (pid r)).
Proof.
  intros H Hl. apply processes_loop_records in H as (rs & -> & F).
  simpl in Hl.
  destruct (Forall2_lookup_r _ _ _ _ _ F Hl) as (f & _ & Hf).
  unfold StraceFile_init in Hf.
  destruct (filename_pid f) as [p|] eqn:Hp; [|done]. simpl in Hf.
  destruct (fs f) as [content|]; [|done]. simpl in Hf.
  apply scan_identity in Hf as (_ & -> & _). simpl.
  unfold filename_pid in Hp.
  destruct (split_on "." f !! 1%nat) as [comp|]; [|done]. simpl in Hp.
  destruct (py_int comp) as [z|] eqn:Hz; [|done]. injection Hp as <-.
  by eapply py_int_printable.
Qed.

(** ** The listing *)

Lemma for_children_ok (f : loc -> printed) cs :
  (forall c, c ∈ cs -> (f c).2 = None) -> (for_children f cs).2 = None.
Proof.
  induction cs as [|c cs IH]; intros H; [done|]. simpl.
  pose proof (H c (list_elem_of_here _ _)) as Hc.
  destruct (f c) as [out [e|]]; [done|].
  assert (Hr : (for_children f cs).2 = None).
  { apply IH. intros c' Hc'. apply H. by right. }
  by destruct (for_children f cs).
Qed.

(** X16. When no record descends from itself ([rank] falls from a record
    to each of its children), the listing of a record of the forest
    completes, without [ValueError], [TypeError], [AttributeError] or
    [RecursionError], as soon as the interpreter allows, when the listing
    is called, more nested calls than the record's rank and what a line
    costs at most ([bound]); what it prints starts with the record's own
    line. *)
Theorem listing_completes
    (fs : filesystem) (names : list text) (h : heap) (procs : gmap Z loc)
    (rank : loc -> nat) (cost : StraceFile -> nat) (bound : nat) :
  processes fs names = Ok (h, procs) ->
  (forall l p ch c,
     (tree h procs).1 !! l = Some p -> children p = Some ch -> c ∈ ch ->
     (rank c < rank l)%nat) ->
  (forall l p, (tree h procs).1 !! l = Some p -> (cost p <= bound)%nat) ->
  forall depth k l indent,
    procs !! k = Some l -> (rank l + bound < depth)%nat ->
    exists p line rest,
      (tree h procs).1 !! l = Some p /\
      proc_line cost (depth - 1) p indent = Ok line /\
      print_proc cost depth (tree h procs).1 l indent = (line :: rest, None).
Proof.
  intros H Hrank Hcost.
  induction depth as [|depth IH]; intros k l indent Hk Hd; [lia|].
  destruct (listable_after_tree _ _ _ _ _ _ H Hk)
    as (p & ch & Hp & _ & _ & Ha & Hch & Hin).
  assert (Hpid : is_Some (py_str (pid p))).
  { destruct (processes_keyed _ _ _ _ H _ _ Hk) as (p0 & Hp0 & _).
    rewrite (tree_record _ _ _ _ _ Hk Hp0) in Hp. injection Hp as <-.
    rewrite relabel_pid. cbn [with_children set_children pid].
    by eapply processes_pid_printable. }
  replace (S depth - 1)%nat with depth by lia.
  assert (Hline : exists line, proc_line cost depth p indent = Ok line).
  { unfold proc_line. destruct Hpid as [ps ->].
    cbn [or_raise mbind result_bind].
    assert (Hf : (depth <? cost p)%nat = false).
    { apply Nat.ltb_ge. pose proof (Hcost _ _ Hp). lia. }
    rewrite Hf. destruct (named p); [|by eexists].
    destruct (Ha eq_refl) as [a ->]. by eexists. }
  destruct Hline as [line Hline].
  cbn [print_proc]. rewrite Hp, Hline, Hch.
  assert (Hc : (for_children
                  (fun c =>
                     print_proc cost depth (tree h procs).1 c (indent + 1))
                  (elements ch)).2 = None).
  { apply for_children_ok. intros c Hc%elem_of_elements.
    destruct (Hin c Hc) as [k' Hk'].
    pose proof (Hrank _ _ _ _ Hp Hch Hc) as Hlt.
    destruct (IH k' c (indent + 1)%nat Hk') as (? & ? & ? & _ & _ & ->);
      [lia|done]. }
  destruct (for_children _ (elements ch)) as [out e]. simpl in Hc. subst e.
  by exists p, line, out.
Qed.

Lemma listing_completes_witness :
  exists p line rest,
    (tree example_heap example_procs).1 !! 0%nat = Some p /\
    proc_line cpython_cost (5 - 1) p 0 = Ok line /\
    print_proc cpython_cost 5 (tree example_heap example_procs).1 0 0
      = (line :: rest, None).
Proof.
  refine (listing_completes (example_fs exec_sh clone_101 exit_101)
            example_names example_heap example_procs
            (fun l => if decide (l = 0%nat) then 1%nat else 0%nat)
            cpython_cost 3%nat
            _ _ _ 5%nat 100 0%nat 0%nat _ _);
    [vm_compute; reflexivity| | |vm_compute; reflexivity|simpl; lia].
  - intros l p ch c Hl Hch Hc.
    destruct l as [|[|l]]; vm_compute in Hl; [| |done];
      injection Hl as <-; vm_compute in Hch; injection Hch as <-.
    + apply elem_of_elements in Hc. vm_compute in Hc.
      inversion Hc as [|? ? ? Hc']; subst; [simpl; lia | inversion Hc'].
    + apply elem_of_elements in Hc. vm_compute in Hc. inversion Hc.
  - intros l p _. unfold cpython_cost.
    destruct (named p); [destruct (execve p)|]; lia.
Defined.

Lemma for_children_fails (f : loc -> printed) cs c :
  c ∈ cs -> (f c).2 <> None -> (for_children f cs).2 <> None.
Proof.
  induction cs as [|c0 cs IH]; intros Hin Hc; [by apply elem_of_nil in Hin|].
  simpl. destruct (f c0) as [out [e|]] eqn:E; [done|].
  apply elem_of_cons in Hin as [->|Hin]; [by rewrite E in Hc|].
  specialize (IH Hin Hc). by destruct (for_children f cs).
Qed.

(** X17. When a record descends from itself (it is in a set [C] of
    objects each of which has a child in [C]), its listing never
    completes, however many calls the interpreter allows and whatever a
    line costs. *)
Theorem listing_of_a_cycle_never_completes
    (cost : StraceFile -> nat) (h : heap) (C : loc -> Prop) :
  (forall l, C l -> exists p ch c,
     h !! l = Some p /\ children p = Some ch /\ c ∈ ch /\ C c) ->
  forall depth l indent,
    C l -> (print_proc cost depth h l indent).2 <> None.
Proof.
  intros Hcyc. induction depth as [|depth IH]; intros l indent Hl; [done|].
  destruct (Hcyc l Hl) as (p & ch & c & Hp & Hch & Hc & HCc).
  cbn [print_proc]. rewrite Hp.
  destruct (proc_line cost depth p indent) as [line|e]; [|done]. rewrite Hch.
  assert (Hf : (for_children
                  (fun c => print_proc cost depth h c (indent + 1))
                  (elements ch)).2 <> None).
  { apply for_children_fails with c; [by apply elem_of_elements|].
    by apply IH. }
  by destruct (for_children _ (elements ch)).
Qed.

Lemma listing_of_a_cycle_never_completes_witness :
  (print_proc cpython_cost 1000 loop_heap 1 0).2 <> None.
Proof.
  refine (listing_of_a_cycle_never_completes cpython_cost loop_heap
            (fun l => l = 1%nat) _ 1000%nat 1%nat 0%nat eq_refl).
  intros l ->. eexists _, _, 1%nat.
  split; [vm_compute; reflexivity|]. split; [vm_compute; reflexivity|].
  split; [|done]. apply elem_of_elements. vm_compute. constructor.
Defined.

(** ** The groups of a recognised [execve] line *)

Lemma greedy_none {A} p s (k : text -> option A) :
  (forall x y, s = x ++ y -> forallb p x = true -> k y = None) ->
  greedy p s k = None.
Proof.
  induction s as [|c s IH]; intros H; simpl.
  - by apply (H [] []).
  - destruct (p c) eqn:Hc; [|by apply (H [] (c :: s))].
    rewrite IH; [by apply (H [] (c :: s))|].
    intros x y -> Hx. apply (H (c :: x) y); [done|]. simpl. by rewrite Hc.
Qed.

(** Greedy repetition stops at the longest run after which the rest of
    the pattern succeeds. *)
Lemma greedy_longest {A} p s1 s2 (k : text -> option A) :
  forallb p s1 = true ->
  (forall x y, s2 = x ++ y -> x <> [] -> forallb p x = true -> k y = None) ->
  is_Some (k s2) ->
  greedy p (s1 ++ s2) k = k s2.
Proof.
  intros H1 Hmax [r Hr]. induction s1 as [|c s1 IH]; simpl.
  - destruct s2 as [|c s2]; [done|]. simpl.
    destruct (p c) eqn:Hc; [|done].
    rewrite greedy_none; [done|].
    intros x y -> Hx. apply (Hmax (c :: x) y); [done..|].
    simpl. by rewrite Hc.
  - simpl in H1. apply andb_true_iff in H1 as [-> H1].
    rewrite (IH H1), Hr. done.
Qed.

Lemma run_lit t : forall s g k, run (lit t) (t ++ s) g k = k s g.
Proof.
  induction t as [|c t IH]; intros s g k; simpl; [done|].
  by rewrite Ascii.eqb_refl, IH.
Qed.

Lemma run_lit_none t : forall s g k,
  starts_with t s = false -> run (lit t) s g k = None.
Proof.
  induction t as [|c t IH]; intros s g k H; simpl in *; [done|].
  destruct s as [|a s]; [done|].
  rewrite (Ascii.eqb_sym a c). destruct (Ascii.eqb c a); [|done].
  by apply IH.
Qed.

Lemma run_seq_lit t R s g k : run (Seq (lit t) R) (t ++ s) g k = run R s g k.
Proof. simpl. by rewrite run_lit. Qed.

Lemma run_seq_plus cl R s1 s2 g k :
  s1 <> [] -> forallb (cmem cl) s1 = true ->
  (forall x y g', s2 = x ++ y -> x <> [] -> forallb (cmem cl) x = true ->
     run R y g' k = None) ->
  is_Some (run R s2 g k) ->
  run (Seq (Plus cl) R) (s1 ++ s2) g k = run R s2 g k.
Proof.
  intros Hne H1 Hmax Hs. destruct s1 as [|c s1]; [done|].
  simpl in H1. apply andb_true_iff in H1 as [Hc H1].
  simpl app. cbn [run Plus]. rewrite Hc.
  rewrite greedy_longest; [done|done| |done].
  intros x y E Hx Hp. by eapply Hmax.
Qed.

Lemma run_seq_group_plus n cl R s1 s2 g k :
  s1 <> [] -> forallb (cmem cl) s1 = true ->
  (forall x y g', s2 = x ++ y -> x <> [] -> forallb (cmem cl) x = true ->
     run R y g' k = None) ->
  is_Some (run R s2 (<[n := s1]> g) k) ->
  run (Seq (Group n (Plus cl)) R) (s1 ++ s2) g k
    = run R s2 (<[n := s1]> g) k.
Proof.
  intros Hne H1 Hmax Hs. destruct s1 as [|c s1]; [done|].
  simpl in H1. apply andb_true_iff in H1 as [Hc H1].
  simpl app. cbn [run Plus]. rewrite Hc.
  pose proof (take_app_rest (c :: s1) s2) as Ht. simpl app in Ht.
  rewrite greedy_longest; [by rewrite Ht|done| |by rewrite Ht].
  intros x y E Hx Hp. by eapply Hmax.
Qed.

Lemma run_seq_group_star n cl R s1 s2 g k :
  forallb (cmem cl) s1 = true ->
  (forall x y g', s2 = x ++ y -> x <> [] -> forallb (cmem cl) x = true ->
     run R y g' k = None) ->
  is_Some (run R s2 (<[n := s1]> g) k) ->
  run (Seq (Group n (Star cl)) R) (s1 ++ s2) g k
    = run R s2 (<[n := s1]> g) k.
Proof.
  intros H1 Hmax Hs. cbn [run].
  pose proof (take_app_rest s1 s2) as Ht.
  rewrite greedy_longest; [by rewrite Ht|done| |by rewrite Ht].
  intros x y E Hx Hp. by eapply Hmax.
Qed.

(** A repetition cannot run past a character its class refuses. *)
Lemma stops_at cl c t (x y : text) :
  cmem cl c = false -> c :: t = x ++ y -> x <> [] ->
  forallb (cmem cl) x = true -> False.
Proof.
  intros Hc E Hx Hp. destruct x as [|a x]; [done|].
  simpl in E, Hp. injection E as <- _. by rewrite Hc in Hp.
Qed.

Section ExecveGroups.

Variables (pre e n a v : text).

Hypothesis parts : execve_parts pre e n a v.
Hypothesis v_closed : all_in (CNot "]") v.

Lemma run_T2 g : run T2 (v ++ str ") = 0") g at_end = Some g.
Proof.
  pose proof parts as [_ _ _ _ [Hne Hv]].
  rewrite run_seq_plus.
  - reflexivity.
  - exact Hne.
  - exact Hv.
  - intros x y g' E Hx _. apply run_lit_none.
    destruct x as [|c1 [|c2 [|c3 [|c4 [|c5 [|c6 x]]]]]];
      simpl in E; try done; simplify_eq; reflexivity.
  - by eexists.
Qed.

Lemma run_T3 g : run T3 (str "]" ++ v ++ str ") = 0") g at_end = Some g.
Proof. rewrite run_seq_lit. apply run_T2. Qed.

Lemma run_T4 g :
  run T4 (a ++ str "]" ++ v ++ str ") = 0") g at_end
    = Some (<["args" := a]> g).
Proof.
  pose proof parts as [_ _ _ [Hne Ha] _].
  rewrite run_seq_group_plus; [apply run_T3|done..| |].
  - intros x y g' E Hx _. destruct x as [|c1 x]; [done|].
    simpl in E. injection E as <- E.
    assert (Hy : all_in (CNot "]") y).
    { assert (Hvz : all_in (CNot "]") (x ++ y)).
      { rewrite <- E. apply all_in_app. split; [exact v_closed|reflexivity]. }
      by apply all_in_app in Hvz as [_ Hvz]. }
    cbn [run]. apply run_lit_none.
    destruct y as [|d y]; [done|]. apply all_in_cons in Hy as [Hd _].
    clear -Hd. destruct d as [[] [] [] [] [] [] [] []]; done.
  - rewrite (run_T3 (<["args" := a]> g)). by eexists.
Qed.

Lemma run_T5 g :
  run T5 ([dq] ++ a ++ str "]" ++ v ++ str ") = 0") g at_end
    = Some (<["args" := a]> g).
Proof. rewrite run_seq_lit. apply run_T4. Qed.

Lemma run_T6 g :
  run T6 (n ++ [dq] ++ a ++ str "]" ++ v ++ str ") = 0") g at_end
    = Some (<["args" := a]> (<["name" := n]> g)).
Proof.
  pose proof parts as [_ _ Hn _ _].
  rewrite run_seq_group_star; [apply run_T5|done| |].
  - intros x y g' E Hx Hp.
    by destruct (stops_at (CNot dq) dq _ x y eq_refl E Hx Hp).
  - rewrite run_T5. by eexists.
Qed.

Lemma run_T7 g :
  run T7 ((dq :: str ", [" ++ [dq]) ++ n ++ [dq] ++ a ++ str "]" ++ v
            ++ str ") = 0") g at_end
    = Some (<["args" := a]> (<["name" := n]> g)).
Proof. rewrite run_seq_lit. apply run_T6. Qed.

Lemma run_T8 g :
  run T8 (e ++ (dq :: str ", [" ++ [dq]) ++ n ++ [dq] ++ a ++ str "]" ++ v
            ++ str ") = 0") g at_end
    = Some (<["args" := a]> (<["name" := n]> (<["exec" := e]> g))).
Proof.
  pose proof parts as [_ [Hne He] _ _ _].
  rewrite run_seq_group_plus; [apply run_T7|done..| |].
  - intros x y g' E Hx Hp.
    by destruct (stops_at (CNot dq) dq _ x y eq_refl E Hx Hp).
  - rewrite run_T7. by eexists.
Qed.

Lemma run_T9 g :
  run T9 ((str " execve(" ++ [dq]) ++ e ++ (dq :: str ", [" ++ [dq]) ++ n
            ++ [dq] ++ a ++ str "]" ++ v ++ str ") = 0") g at_end
    = Some (<["args" := a]> (<["name" := n]> (<["exec" := e]> g))).
Proof. rewrite run_seq_lit. apply run_T8. Qed.

(** What [RE_EXECVE] captures in a line of the [execve] shape whose text
    after the bracketed list holds no closing bracket. *)
Lemma execve_groups :
  fullmatch RE_EXECVE (execve_text pre e n a v)
    = Some (<["args" := a]> (<["name" := n]> (<["exec" := e]> ∅))).
Proof.
  pose proof parts as [[Hne Hp] _ _ _ _].
  unfold fullmatch, RE_EXECVE, execve_text. cbv [seqs].
  rewrite run_seq_plus; [apply run_T9|done..| |].
  - intros x y g' E Hx Hp'.
    by destruct (stops_at CNotSpace " " _ x y eq_refl E Hx Hp').
  - rewrite run_T9. by eexists.
Qed.

End ExecveGroups.

(** X18. Reading a successful [execve] line of the shape the pattern is
    written for, into a record with no captured image, captures the path
    and the display name, and as argument text the display name in quotes
    followed by everything up to the last closing bracket of the line,
    provided the text after that bracket holds none; all three are set
    together with [named]. A record that is already named stays as it
    is. *)
Theorem execve_line_captures_the_image
    (self : StraceFile) (line pre e n a v : text) :
  strip line = execve_text pre e n a v ->
  execve_parts pre e n a v ->
  all_in (CNot "]") v ->
  scan_line self line
    = Ok (if named self then self else set_exec self e n a).
Proof.
  intros Hs Hparts Hv. rewrite scan_line_cases.
  unfold recognised_execve. rewrite Hs, (execve_groups _ _ _ _ _ Hparts Hv).
  simpl. by simplify_map_eq.
Qed.

Lemma execve_line_captures_the_image_witness :
  scan_line (new_record (str "trace.100") 100) (exec_test ++ [LF])
    = Ok (set_exec (new_record (str "trace.100") 100)
            (str "/usr/bin/[") (str "[") test_args).
Proof.
  apply (execve_line_captures_the_image (new_record (str "trace.100") 100)
           (exec_test ++ [LF]) (str "1") (str "/usr/bin/[") (str "[")
           test_args (str ", 0x7ffc /* 3 vars */")).
  - vm_compute. reflexivity.
  - split; try (split; [discriminate|]); vm_compute; reflexivity.
  - vm_compute. reflexivity.
Defined.

(** ** The forest reaches every record *)

Lemma descends_snoc (h : heap) l m p ch c :
  descends h l m -> h !! m = Some p -> children p = Some ch -> c ∈ ch ->
  descends h l c.
Proof.
  intros D Hm Hch Hc. induction D as [l|l p0 ch0 c0 m Hl Hch0 Hc0 _ IH].
  - eapply descends_step; [done..|]. apply descends_refl.
  - eapply descends_step; [done..|]. by apply IH.
Qed.

Lemma rank_bounded (rank : loc -> nat) (ls : list loc) l :
  l ∈ ls -> (rank l <= foldr Nat.max 0%nat (rank <$> ls))%nat.
Proof.
  induction ls as [|x ls IH]; intros Hl.
  - by apply elem_of_nil in Hl.
  - rewrite fmap_cons. cbn [foldr].
    apply elem_of_cons in Hl as [->|Hl]; [lia|].
    specialize (IH Hl). lia.
Qed.

(** X19. In a collection keyed by pid where no record descends from itself
    ([rank] falls from a record to each of its children), every record is
    reached from a root of the forest [tree] returns. *)
Theorem every_record_descends_from_a_root
    (h : heap) (procs : gmap Z loc) (rank : loc -> nat) :
  keyed_by_pid h procs ->
  (forall l p ch c,
     (tree h procs).1 !! l = Some p -> children p = Some ch -> c ∈ ch ->
     (rank c < rank l)%nat) ->
  forall k l, procs !! k = Some l ->
    exists kr lr,
      (tree h procs).2 !! kr = Some lr /\ descends (tree h procs).1 lr l.
Proof.
  intros Hkey Hrank.
  set (bound := foldr Nat.max 0%nat (rank <$> values procs)).
  assert (Hbound : forall k l, procs !! k = Some l -> (rank l <= bound)%nat).
  { intros k l Hk. apply rank_bounded, elem_of_values. by exists k. }
  assert (G : forall n k l, procs !! k = Some l ->
              (bound - rank l <= n)%nat ->
              exists kr lr, (tree h procs).2 !! kr = Some lr /\
                            descends (tree h procs).1 lr l).
  { induction n as [|n IH]; intros k l Hk Hn;
      (destruct (decide (k ∈ spawned_set h procs)) as [Hin|Hnin];
       [|exists k, l; split;
           [by apply tree_roots_lookup|apply descends_refl]]);
      apply (child_iff_spawned h procs k l Hkey Hk) in Hin
        as (k' & l' & p' & ch & Hk' & Hl' & Hch & Hc);
      pose proof (Hrank _ _ _ _ Hl' Hch Hc) as Hlt;
      pose proof (Hbound _ _ Hk') as Hb.
    - lia.
    - destruct (IH k' l' Hk') as (kr & lr & Hr & D); [lia|].
      exists kr, lr. split; [done|]. by eapply descends_snoc. }
  intros k l Hk. apply (G bound k l Hk). lia.
Qed.

Lemma every_record_descends_from_a_root_witness :
  exists kr lr,
    (tree example_heap example_procs).2 !! kr = Some lr /\
    descends (tree example_heap example_procs).1 lr 1%nat.
Proof.
  refine (every_record_descends_from_a_root example_heap example_procs
            (fun l => if decide (l = 0%nat) then 1%nat else 0%nat)
            _ _ 101 1%nat _); [| |vm_compute; reflexivity].
  - apply (processes_keyed (example_fs exec_sh clone_101 exit_101)
             example_names).
    vm_compute. reflexivity.
  - intros l p ch c Hl Hch Hc.
    destruct l as [|[|l]]; vm_compute in Hl; [| |done];
      injection Hl as <-; vm_compute in Hch; injection Hch as <-.
    + apply elem_of_elements in Hc. vm_compute in Hc.
      inversion Hc as [|? ? ? Hc']; subst; [simpl; lia | inversion Hc'].
    + apply elem_of_elements in Hc. vm_compute in Hc. inversion Hc.
Defined.

(** ** The example of a shell and its child, whatever else the child did *)

(** Where the first closing bracket of a text stands. *)
Lemma split_at_first c : forall a x y z : text,
  all_in (CNot c) a ->
  x ++ c :: y = a ++ c :: z ->
  (x = a /\ y = z) \/ exists u, x = a ++ c :: u /\ z = u ++ c :: y.
Proof.
  induction a as [|d a IH]; intros x y z Ha E.
  - destruct x as [|d x]; simpl in E; inversion E; subst; [by left|].
    right. by exists x.
  - apply all_in_cons in Ha as [Hd Ha]. destruct x as [|d' x]; simpl in E.
    + inversion E; subst. simpl in Hd. by rewrite Ascii.eqb_refl in Hd.
    + inversion E; subst.
      destruct (IH x y z Ha) as [[-> ->]|(u & -> & ->)]; [done|by left|].
      right. by exists u.
Qed.

Lemma bracket_free_last_only v : all_in (CNot "]") v -> bracket_last_only v.
Proof. intros H x y ->. by destruct (all_in_not_mid _ _ _ H). Qed.

Lemma bracket_snoc_last_only v :
  all_in (CNot "]") v -> bracket_last_only (v ++ str "]").
Proof.
  intros H x y E. symmetry in E.
  by apply (split_only "]") in E as [_ ->].
Qed.

(** The rest of the bracketed list is captured as written when it holds
    no closing bracket and none after it is followed by more text. *)
Lemma execve_recognised_as_written line pre e n a v :
  strip line = execve_text pre e n a v ->
  execve_parts pre e n a v ->
  all_in (CNot "]") a -> bracket_last_only v ->
  recognised_execve line = Some (e, n, a).
Proof.
  intros Hs Hparts Ha Hv. unfold recognised_execve. rewrite Hs.
  destruct (fullmatch_complete _ _ _ _ (execve_text_matches _ _ _ _ _ Hparts))
    as [m M].
  rewrite M. simpl.
  apply execve_shape in M as (pre' & e' & n' & a' & v' & E & P & ->).
  destruct Hparts as [[_ Hp] [_ He] Hn _ _].
  destruct P as [[_ Hp'] [_ He'] Hn' _ [Hv' _]].
  apply execve_text_inj in E as (-> & -> & -> & E); [|done..].
  simplify_map_eq. do 3 f_equal. symmetry in E.
  apply (split_at_first "]") in E as [[-> _]|(u & -> & E)]; [done| |done].
  assert (E' : v = u ++ "]"%char :: v').
  { apply (app_inv_tail (str ") = 0")). simpl. rewrite E.
    rewrite <- app_assoc. reflexivity. }
  by destruct (Hv' (Hv _ _ E')).
Qed.

Section Example.

Variables (pre v cl other : text).

Hypothesis pre_token : pre <> [] /\ all_in CNotSpace pre.
Hypothesis v_text : v <> [] /\ no_newline v /\ bracket_last_only v.
Hypothesis cl_line : no_newline cl /\ recognised_clone cl = Some (str "101").
Hypothesis other_lines : Forall bystander (file_lines other).

Lemma exec_sh_line_parts :
  execve_parts pre (str "/bin/sh") (str "sh") sh_args v.
Proof.
  destruct pre_token, v_text as (? & ? & ?).
  split; try done. split; [done|]. by apply no_newline_dot.
Qed.

Lemma exec_sh_line_recognised :
  recognised_execve (exec_sh_line pre v ++ [LF])
    = Some (str "/bin/sh", str "sh", sh_args).
Proof.
  destruct pre_token as [Hne Hp], v_text as (_ & _ & Hv).
  apply (execve_recognised_as_written _ pre _ _ _ v); [| |done|done].
  - unfold strip. rewrite strip_snoc by done.
    by apply execve_text_strip.
  - apply exec_sh_line_parts.
Qed.

Lemma trace_100_lines :
  file_lines (exec_sh_line pre v ++ [LF] ++ cl ++ [LF])
    = [exec_sh_line pre v ++ [LF]; cl ++ [LF]].
Proof.
  destruct pre_token as [_ Hp], v_text as (_ & Hv & _), cl_line as [Hc _].
  apply file_lines_two; [|done].
  unfold exec_sh_line, execve_text.
  repeat (apply no_newline_app; [by auto using not_space_no_newline|]).
  done.
Qed.

Lemma trace_100_record :
  StraceFile_init (example_fs (exec_sh_line pre v) cl other) (str "trace.100")
    = Ok (add_clone
            (set_exec (new_record (str "trace.100") 100)
               (str "/bin/sh") (str "sh") sh_args) 101).
Proof.
  destruct cl_line as [_ Hc].
  rewrite (StraceFile_init_scan _ _ 100
             (exec_sh_line pre v ++ [LF] ++ cl ++ [LF])); [|done..].
  rewrite trace_100_lines. cbn [for_each].
  rewrite scan_line_cases, exec_sh_line_recognised. simpl.
  rewrite scan_line_cases.
  assert (Hc' : recognised_clone (cl ++ [LF]) = Some (str "101")).
  { unfold recognised_clone, strip. rewrite strip_snoc by done. exact Hc. }
  by rewrite (recognised_clone_not_execve _ _ Hc'), Hc'.
Qed.

(** The record of [trace.101]: unnamed, and it has spawned neither 100
    nor 101. *)
Lemma trace_101_record :
  exists r,
    StraceFile_init (example_fs (exec_sh_line pre v) cl other)
      (str "trace.101") = Ok r /\
    pid r = 101 /\ named r = false /\
    forall x, x ∈ clones r -> x <> 100 /\ x <> 101.
Proof.
  rewrite (StraceFile_init_scan _ _ 101 other); [|done..].
  destruct (scan_total (file_lines other) (new_record (str "trace.101") 101))
    as [r E].
  { eapply Forall_impl; [exact other_lines|].
    intros l [_ H] d Hd. destruct (H d Hd) as (x & -> & _). by eexists. }
  exists r. split; [done|].
  destruct (scan_identity _ _ _ E) as (_ & Hpid & _).
  assert (Hex : Forall (fun l => recognised_execve l = None)
                  (file_lines other)).
  { eapply Forall_impl; [exact other_lines|]. by intros l [H _]. }
  destruct (scan_others _ _ _ Hex E) as (Hn & _).
  split; [done|]. split; [done|].
  intros x Hx. apply (scan_clones _ _ _ E) in Hx as [Hx|(l & Hl & Hs)];
    [by apply elem_of_empty in Hx|].
  pose proof other_lines as Ho. rewrite Forall_forall in Ho.
  destruct (Ho l Hl) as [_ H]. unfold spawned_by in Hs.
  destruct (recognised_clone l) as [d|]; [|done]. simpl in Hs.
  destruct (H d eq_refl) as (y & Hy & Hy1). rewrite Hy in Hs.
  by injection Hs as <-.
Qed.

Lemma example_outcome_any :
  exists h procs,
    processes (example_fs (exec_sh_line pre v) cl other) example_names
      = Ok (h, procs) /\
    example_outcome procs (tree h procs).
Proof.
  destruct trace_101_record as (r101 & E101 & Hpid & Hn & Hcl).
  set (r100 := add_clone
                 (set_exec (new_record (str "trace.100") 100)
                    (str "/bin/sh") (str "sh") sh_args) 101).
  assert (Hproc : processes (example_fs (exec_sh_line pre v) cl other)
                    example_names = Ok ([r100; r101], example_procs)).
  { unfold processes, example_names. cbn [for_each].
    rewrite (processes_step_ok _ _ _ _ _ trace_100_record). simpl.
    rewrite (processes_step_ok _ _ _ _ _ E101). simpl. by rewrite Hpid. }
  exists [r100; r101], example_procs. split; [done|].
  pose proof (processes_keyed _ _ _ _ Hproc) as Hkey.
  assert (H100 : example_procs !! 100 = Some 0%nat) by reflexivity.
  assert (H101 : example_procs !! 101 = Some 1%nat) by reflexivity.
  assert (Hkeys : forall k l, example_procs !! k = Some l ->
                    (k = 100 /\ l = 0%nat) \/ (k = 101 /\ l = 1%nat)).
  { intros k l H. unfold example_procs in H.
    apply lookup_insert_Some in H as [[<- <-]|[_ H]]; [by right|].
    apply lookup_insert_Some in H as [[<- <-]|[_ H]]; [by left|].
    by rewrite lookup_empty in H. }
  assert (Hs101 : 101 ∈ spawned_set [r100; r101] example_procs).
  { apply spawned_set_spec. exists 100, 0%nat, r100.
    split; [done|]. split; [done|]. apply elem_of_union. right.
    by apply elem_of_singleton. }
  assert (Hs100 : 100 ∉ spawned_set [r100; r101] example_procs).
  { intros (k & l & p & Hk & Hl & Hx)%spawned_set_spec.
    destruct (Hkeys _ _ Hk) as [[-> ->]|[-> ->]]; simpl in Hl;
      injection Hl as <-.
    - apply elem_of_union in Hx as [Hx|Hx]; [by apply elem_of_empty in Hx|].
      by apply elem_of_singleton in Hx.
    - by destruct (Hcl _ Hx). }
  exists 0%nat, 1%nat,
    (relabel (spawned_set [r100; r101] example_procs)
       (with_children example_procs r100)),
    (relabel (spawned_set [r100; r101] example_procs)
       (with_children example_procs r101)).
  split; [done|]. split; [done|].
  split; [by apply (tree_record _ _ 100)|].
  split; [by apply (tree_record _ _ 101)|].
  split; [|split; [|split; [|split; [|split; [|split]]]]].
  - apply map_eq. intros k.
    destruct ((tree [r100; r101] example_procs).2 !! k) as [l|] eqn:E.
    + apply (tree_roots_lookup _ _ Hkey) in E as [Hk Hns].
      destruct (Hkeys _ _ Hk) as [[-> ->]|[-> ->]]; [done|].
      by destruct Hns.
    + destruct (decide (k = 100)) as [->|Hne].
      * assert (Hr : (tree [r100; r101] example_procs).2 !! 100
                     = Some 0%nat) by by apply (tree_roots_lookup _ _ Hkey).
        congruence.
      * by rewrite lookup_singleton_ne.
  - reflexivity.
  - reflexivity.
  - reflexivity.
  - reflexivity.
  - unfold relabel. cbn [with_children set_children named pid].
    rewrite Hn, Hpid. cbn [negb]. by rewrite decide_True.
  - unfold relabel. cbn [with_children set_children named pid].
    rewrite Hn, Hpid. cbn [negb]. rewrite decide_True by done.
    unfold with_children. cbn [set_label set_children children]. f_equal.
    apply set_eq. intros l. unfold children_of. split.
    + intros (c & Hc & Hl)%elem_of_set_omap.
      destruct (Hcl _ Hc) as [? ?].
      by destruct (Hkeys _ _ Hl) as [[-> _]|[-> _]].
    + by intros ?%elem_of_empty.
Qed.

End Example.

(** C9, as amended: when the [execve] line stands after a whitespace-free
    prefix and shows further argument text after the bracketed list (in
    which no closing bracket is followed by more text), the creation line
    is one [RE_CLONE] recognises with pid 101, and [trace.101] holds no
    recognised [execve] line and no creation line other than ones that
    return a pid [int] reads, neither 100 nor 101, the example gives the
    forest it expects. *)
Theorem example_forest (pre v cl other : text) :
  pre <> [] /\ all_in CNotSpace pre ->
  v <> [] /\ no_newline v /\ bracket_last_only v ->
  no_newline cl /\ recognised_clone cl = Some (str "101") ->
  Forall bystander (file_lines other) ->
  exists h procs,
    processes (example_fs (exec_sh_line pre v) cl other) example_names
      = Ok (h, procs) /\
    example_outcome procs (tree h procs).
Proof. intros Hp Hv Hc Ho. by apply example_outcome_any. Qed.

Lemma example_forest_witness :
  exists h procs,
    processes (example_fs exec_sh_env clone_101 other_555) example_names
      = Ok (h, procs) /\
    example_outcome procs (tree h procs).
Proof.
  apply (example_forest (str "1")
           (str ", [" ++ [dq] ++ str "A=1" ++ [dq] ++ str "]") clone_101
           other_555).
  - split; [discriminate | vm_compute; reflexivity].
  - split; [discriminate | split; [vm_compute; reflexivity|]].
    apply (bracket_snoc_last_only (str ", [" ++ [dq] ++ str "A=1" ++ [dq])).
    vm_compute; reflexivity.
  - split; vm_compute; reflexivity.
  - assert (E : file_lines other_555
                = [clone_line (str "555") ++ [LF]; exit_101])
      by (vm_compute; reflexivity).
    rewrite E. repeat constructor; try (vm_compute; reflexivity);
      intros d Hd; vm_compute in Hd;
      first [discriminate Hd
            | injection Hd as <-; exists 555;
              split; [vm_compute; reflexivity | lia]].
Defined.

(** C9 as stated fails, in four ways. The [execve] line as written (no
    prefix, nothing after the list) is not recognised, and record 100 is
    labelled [init]; so it is with the prefix alone, and with a third
    argument alone. With a creation line that returns 100 in
    [trace.101], a file with no [execve] line, record 100 is no root.
    With a closing bracket inside the text after the argument list, the
    argument text runs up to that bracket. With a creation line in
    [trace.101] whose pid has 4301 digits, no forest is built. *)
Lemma example_as_written_fails :
  (exists h procs,
     processes (example_fs exec_sh_as_written clone_101 exit_101)
       example_names = Ok (h, procs) /\
     ~ example_outcome procs (tree h procs)) /\
  (exists h procs,
     processes (example_fs exec_sh_no_more clone_101 exit_101)
       example_names = Ok (h, procs) /\
     ~ example_outcome procs (tree h procs)) /\
  (exists h procs,
     processes (example_fs exec_sh_no_prefix clone_101 exit_101)
       example_names = Ok (h, procs) /\
     ~ example_outcome procs (tree h procs)) /\
  (exists h procs,
     processes (example_fs exec_sh clone_101 (clone_line (str "100") ++ [LF]))
       example_names = Ok (h, procs) /\
     ~ example_outcome procs (tree h procs)) /\
  (exists h procs,
     processes (example_fs exec_sh_env_bracket clone_101 exit_101)
       example_names = Ok (h, procs) /\
     ~ example_outcome procs (tree h procs)) /\
  processes
    (example_fs exec_sh clone_101
       (clone_line (replicate 4301 "1"%char) ++ [LF]))
    example_names = Raise ValueError.
Proof.
  split; [|split; [|split; [|split; [|split]]]];
    [| | | | |vm_compute; reflexivity].
  - eexists _, _. split; [vm_compute; reflexivity|].
    intros (l100 & l101 & r100 & r101 & H1 & _ & H3 & _ & _ & Hn & _).
    vm_compute in H1. injection H1 as <-.
    vm_compute in H3. injection H3 as <-.
    vm_compute in Hn. discriminate Hn.
  - eexists _, _. split; [vm_compute; reflexivity|].
    intros (l100 & l101 & r100 & r101 & H1 & _ & H3 & _ & _ & Hn & _).
    vm_compute in H1. injection H1 as <-.
    vm_compute in H3. injection H3 as <-.
    vm_compute in Hn. discriminate Hn.
  - eexists _, _. split; [vm_compute; reflexivity|].
    intros (l100 & l101 & r100 & r101 & H1 & _ & H3 & _ & _ & Hn & _).
    vm_compute in H1. injection H1 as <-.
    vm_compute in H3. injection H3 as <-.
    vm_compute in Hn. discriminate Hn.
  - eexists _, _. split; [vm_compute; reflexivity|].
    intros (l100 & l101 & r100 & r101 & H1 & _ & _ & _ & Hr & _).
    vm_compute in H1. injection H1 as <-.
    apply (f_equal (fun m : gmap Z loc => m !! 100)) in Hr.
    vm_compute in Hr. inversion Hr.
  - eexists _, _. split; [vm_compute; reflexivity|].
    intros (l100 & l101 & r100 & r101 & H1 & _ & H3 & _ & _ & _ & _ & Ha & _).
    vm_compute in H1. injection H1 as <-.
    vm_compute in H3. injection H3 as <-.
    vm_compute in Ha. discriminate Ha.
Qed.
